(** * CropWise: the chart code of [static/js/charts.js]

    A shallow embedding of the three chart builders of the page
    ([createConfidenceChart], [createParameterComparisonChart],
    [createRangeChart]) and of the helpers they use, with the properties
    the specification states about them.

    JavaScript numbers are IEEE-754 doubles.  The arithmetic of the
    source is written once, over a class [Number] of the operations the
    source applies, and read at two instances:
    - [float], Rocq's primitive binary64 numbers: the operations of the
      source bit for bit.  This is the code; what is stated of doubles
      is stated of the code as it runs;
    - [Q], exact rational arithmetic: the same formulas with no
      rounding, no overflow and no [NaN].  This is not the code but the
      quantity the code approximates; a statement at [Q] says so, and
      the divisor is non-zero wherever it uses the quotient.  Where only
      the sign of a difference of two scores matters (the comparison
      function of the sort), the two readings agree on the doubles
      that are numbers. *)

From Stdlib Require Import ZArith QArith Lqa Floats List String Ascii Lia.
From Stdlib Require Import Sorting.Sorted Sorting.Permutation.
From stdpp Require Import base gmap.
Import ListNotations.

#[local] Open Scope Q_scope.

(** ** Numbers *)

(** The operations of JavaScript numbers the source uses: [-], [/], [*],
    integer literals, and the test [v > 0] that [Array.prototype.sort]
    applies to the value its comparison function returns. *)
Class Number (num : Type) := {
  num_sub : num -> num -> num;
  num_div : num -> num -> num;
  num_mul : num -> num -> num;
  num_lit : Z -> num;
  num_gt0 : num -> bool
}.

(** Exact arithmetic: the operations without rounding.  A double that
    is a number is a rational, but the result of an operation of the
    code is the rounding of the result given here. *)
#[export] Instance Q_Number : Number Q := {
  num_sub := Qminus;
  num_div := Qdiv;
  num_mul := Qmult;
  num_lit := inject_Z;
  num_gt0 x := match 0 ?= x with Lt => true | _ => false end
}.

(** An integer literal as a double (exact below 2^53). *)
Definition float_lit (z : Z) : float :=
  match z with
  | Z0 => PrimFloat.zero
  | Zpos _ => PrimFloat.of_uint63 (Uint63.of_Z z)
  | Zneg p => PrimFloat.opp (PrimFloat.of_uint63 (Uint63.of_Z (Zpos p)))
  end.

#[export] Instance float_Number : Number float := {
  num_sub := PrimFloat.sub;
  num_div := PrimFloat.div;
  num_mul := PrimFloat.mul;
  num_lit := float_lit;
  num_gt0 x := PrimFloat.ltb PrimFloat.zero x
}.

(** A value per soil parameter: the objects with keys
    [n, p, k, temp, humidity, ph, rainfall] of the source. *)
Module ByParam.
Record t (A : Type) := mk {
  n : A; p : A; k : A; temp : A; humidity : A; ph : A; rainfall : A
}.
Arguments mk {A}.
Arguments n {A}.
Arguments p {A}.
Arguments k {A}.
Arguments temp {A}.
Arguments humidity {A}.
Arguments ph {A}.
Arguments rainfall {A}.

(** The order in which the chart lists the parameters. *)
Definition toList {A} (x : t A) : list A :=
  [n x; p x; k x; temp x; humidity x; ph x; rainfall x].
End ByParam.

(** The [conditions] object of the [crop_conditions] endpoint. *)
Record conditions (num : Type) := {
  description : string;
  n_min : num; n_max : num;
  p_min : num; p_max : num;
  k_min : num; k_max : num;
  temperature_min : num; temperature_max : num;
  humidity_min : num; humidity_max : num;
  ph_min : num; ph_max : num;
  rainfall_min : num; rainfall_max : num
}.
Arguments description {num}.
Arguments n_min {num}. Arguments n_max {num}.
Arguments p_min {num}. Arguments p_max {num}.
Arguments k_min {num}. Arguments k_max {num}.
Arguments temperature_min {num}. Arguments temperature_max {num}.
Arguments humidity_min {num}. Arguments humidity_max {num}.
Arguments ph_min {num}. Arguments ph_max {num}.
Arguments rainfall_min {num}. Arguments rainfall_max {num}.

(** What a chart is given to draw: the [data] member of the configuration
    passed to [new Chart].  Colours, bar thickness and the [options]
    member do not carry numbers of the model and are left out.  [ds_base]
    is the dataset's [base] member, [None] when the source sets none. *)
Record dataset (num : Type) := {
  ds_label : string;
  ds_data : list num;
  ds_base : option (list num)
}.
Arguments ds_label {num}. Arguments ds_data {num}. Arguments ds_base {num}.

Record chartData (num : Type) := {
  labels : list string;
  datasets : list (dataset num)
}.
Arguments labels {num}. Arguments datasets {num}.

(** An element of [parameters] in [createRangeChart]. *)
Record parameter (num : Type) := {
  param_name : string;
  param_min : num;
  param_max : num;
  param_unit : string;
  param_totalRange : num * num
}.
Arguments param_name {num}. Arguments param_min {num}.
Arguments param_max {num}. Arguments param_unit {num}.
Arguments param_totalRange {num}.

(** An element of [data] in [createRangeChart]. *)
Record rangeDatum (num : Type) := {
  rd_parameter : string;
  rd_unit : string;
  minValue : num;
  maxValue : num;
  startPosition : num;
  rangeWidth : num
}.
Arguments rd_parameter {num}. Arguments rd_unit {num}.
Arguments minValue {num}. Arguments maxValue {num}.
Arguments startPosition {num}. Arguments rangeWidth {num}.

Declare Scope num_scope.

Section Normalizer.
Context {num : Type} `{Number num}.

#[local] Notation "x - y" := (num_sub x y) : num_scope.
#[local] Notation "x / y" := (num_div x y) : num_scope.
#[local] Notation "x * y" := (num_mul x y) : num_scope.
#[local] Open Scope num_scope.

(** [normalize], local to [createParameterComparisonChart]. *)
Definition normalize (value min max : num) : num :=
  ((value - min) / (max - min)) * num_lit 100.

(** [ranges]: the total possible range of each parameter. *)
Definition ranges : ByParam.t (num * num) :=
  ByParam.mk
    (num_lit 0, num_lit 140) (num_lit 5, num_lit 145)
    (num_lit 5, num_lit 205) (num_lit 0, num_lit 50)
    (num_lit 0, num_lit 100) (num_lit 0, num_lit 14)
    (num_lit 0, num_lit 300).

(** *** [createParameterComparisonChart] *)

Definition normalizedUserValues (userValues : ByParam.t num)
  : ByParam.t num :=
  let r := ranges in
  ByParam.mk
    (normalize (ByParam.n userValues) (fst (ByParam.n r)) (snd (ByParam.n r)))
    (normalize (ByParam.p userValues) (fst (ByParam.p r)) (snd (ByParam.p r)))
    (normalize (ByParam.k userValues) (fst (ByParam.k r)) (snd (ByParam.k r)))
    (normalize (ByParam.temp userValues)
       (fst (ByParam.temp r)) (snd (ByParam.temp r)))
    (normalize (ByParam.humidity userValues)
       (fst (ByParam.humidity r)) (snd (ByParam.humidity r)))
    (normalize (ByParam.ph userValues)
       (fst (ByParam.ph r)) (snd (ByParam.ph r)))
    (normalize (ByParam.rainfall userValues)
       (fst (ByParam.rainfall r)) (snd (ByParam.rainfall r))).

Definition normalizedOptimalMin (c : conditions num) : ByParam.t num :=
  let r := ranges in
  ByParam.mk
    (normalize (n_min c) (fst (ByParam.n r)) (snd (ByParam.n r)))
    (normalize (p_min c) (fst (ByParam.p r)) (snd (ByParam.p r)))
    (normalize (k_min c) (fst (ByParam.k r)) (snd (ByParam.k r)))
    (normalize (temperature_min c)
       (fst (ByParam.temp r)) (snd (ByParam.temp r)))
    (normalize (humidity_min c)
       (fst (ByParam.humidity r)) (snd (ByParam.humidity r)))
    (normalize (ph_min c) (fst (ByParam.ph r)) (snd (ByParam.ph r)))
    (normalize (rainfall_min c)
       (fst (ByParam.rainfall r)) (snd (ByParam.rainfall r))).

Definition normalizedOptimalMax (c : conditions num) : ByParam.t num :=
  let r := ranges in
  ByParam.mk
    (normalize (n_max c) (fst (ByParam.n r)) (snd (ByParam.n r)))
    (normalize (p_max c) (fst (ByParam.p r)) (snd (ByParam.p r)))
    (normalize (k_max c) (fst (ByParam.k r)) (snd (ByParam.k r)))
    (normalize (temperature_max c)
       (fst (ByParam.temp r)) (snd (ByParam.temp r)))
    (normalize (humidity_max c)
       (fst (ByParam.humidity r)) (snd (ByParam.humidity r)))
    (normalize (ph_max c) (fst (ByParam.ph r)) (snd (ByParam.ph r)))
    (normalize (rainfall_max c)
       (fst (ByParam.rainfall r)) (snd (ByParam.rainfall r))).

Definition optimalRangeWidth (c : conditions num) : ByParam.t num :=
  let hi := normalizedOptimalMax c in
  let lo := normalizedOptimalMin c in
  ByParam.mk
    (ByParam.n hi - ByParam.n lo)
    (ByParam.p hi - ByParam.p lo)
    (ByParam.k hi - ByParam.k lo)
    (ByParam.temp hi - ByParam.temp lo)
    (ByParam.humidity hi - ByParam.humidity lo)
    (ByParam.ph hi - ByParam.ph lo)
    (ByParam.rainfall hi - ByParam.rainfall lo).

(** The [data] member given to [new Chart] by
    [createParameterComparisonChart]: neither dataset has a [base]. *)
Definition parameterChartData (userValues : ByParam.t num)
    (c : conditions num) : chartData num :=
  {| labels := ["Nitrogen"; "Phosphorus"; "Potassium"; "Temperature";
                "Humidity"; "pH"; "Rainfall"]%string;
     datasets :=
       [ {| ds_label := "Your Soil";
            ds_data := ByParam.toList (normalizedUserValues userValues);
            ds_base := None |};
         {| ds_label := "Optimal Range";
            ds_data := ByParam.toList (optimalRangeWidth c);
            ds_base := None |} ] |}.

(** *** [createRangeChart] *)

Definition parameters (c : conditions num) : list (parameter num) :=
  [ {| param_name := "Nitrogen"; param_min := n_min c; param_max := n_max c;
       param_unit := "kg/ha";
       param_totalRange := (num_lit 0, num_lit 140) |};
    {| param_name := "Phosphorus"; param_min := p_min c;
       param_max := p_max c; param_unit := "kg/ha";
       param_totalRange := (num_lit 5, num_lit 145) |};
    {| param_name := "Potassium"; param_min := k_min c;
       param_max := k_max c; param_unit := "kg/ha";
       param_totalRange := (num_lit 5, num_lit 205) |};
    {| param_name := "Temperature"; param_min := temperature_min c;
       param_max := temperature_max c; param_unit := "°C";
       param_totalRange := (num_lit 0, num_lit 50) |};
    {| param_name := "Humidity"; param_min := humidity_min c;
       param_max := humidity_max c; param_unit := "%";
       param_totalRange := (num_lit 0, num_lit 100) |};
    {| param_name := "pH"; param_min := ph_min c; param_max := ph_max c;
       param_unit := "";
       param_totalRange := (num_lit 0, num_lit 14) |};
    {| param_name := "Rainfall"; param_min := rainfall_min c;
       param_max := rainfall_max c; param_unit := "mm";
       param_totalRange := (num_lit 0, num_lit 300) |} ]%string.

(** The function mapped over [parameters]. *)
Definition rangeEntry (param : parameter num) : rangeDatum num :=
  let totalRange :=
    snd (param_totalRange param) - fst (param_totalRange param) in
  let minPercent :=
    ((param_min param - fst (param_totalRange param)) / totalRange)
    * num_lit 100 in
  let maxPercent :=
    ((param_max param - fst (param_totalRange param)) / totalRange)
    * num_lit 100 in
  let rangeWidth := maxPercent - minPercent in
  {| rd_parameter := param_name param;
     rd_unit := param_unit param;
     minValue := param_min param;
     maxValue := param_max param;
     startPosition := minPercent;
     rangeWidth := rangeWidth |}.

Definition rangeData (c : conditions num) : list (rangeDatum num) :=
  List.map rangeEntry (parameters c).

(** The [data] member given to [new Chart] by [createRangeChart]. *)
Definition rangeChartData (c : conditions num) : chartData num :=
  let data := rangeData c in
  {| labels := List.map rd_parameter data;
     datasets :=
       [ {| ds_label := "Parameter Range";
            ds_data := List.map rangeWidth data;
            ds_base := Some (List.map startPosition data) |} ] |}.

(** *** The interval computation the two charts share

    The specification calls [normalizeInterval] the computation of a
    start and a width from an optimal interval [[min, max]] and a total
    range [[lo, hi]].  The source has it twice: in the function mapped
    over [parameters] by [createRangeChart], and spread over
    [normalizedOptimalMin], [normalizedOptimalMax] and
    [optimalRangeWidth] in [createParameterComparisonChart]. *)

(** As [createRangeChart] computes it. *)
Definition normalizeInterval (min max lo hi : num) : num * num :=
  let d := rangeEntry {| param_name := ""; param_min := min;
                         param_max := max; param_unit := "";
                         param_totalRange := (lo, hi) |} in
  (startPosition d, rangeWidth d).

(** As [createParameterComparisonChart] computes it for one key. *)
Definition comparisonInterval (min max lo hi : num) : num * num :=
  let normalizedOptimalMin := normalize min lo hi in
  let normalizedOptimalMax := normalize max lo hi in
  (normalizedOptimalMin, normalizedOptimalMax - normalizedOptimalMin).

End Normalizer.

(** ** Labels *)

#[local] Open Scope string_scope.

(** [String.prototype.toUpperCase] on one character of an ASCII text:
    the letters [a]-[z] are mapped and every other character is left as
    it is.  On other text JavaScript maps more letters and can change
    the length; of this function the properties of capitalized labels
    use only that it is idempotent and that it neither makes nor removes
    a space, which hold of JavaScript's mapping on any text, or they
    assume the text to be ASCII. *)
Definition toUpperCase (c : ascii) : ascii :=
  let i := nat_of_ascii c in
  if ((97 <=? i) && (i <=? 122))%nat then ascii_of_nat (i - 32) else c.

(** [string.split(' ')]: the pieces between the spaces, at least one. *)
Fixpoint split_space (s : string) : list string :=
  match s with
  | EmptyString => [EmptyString]
  | String c rest =>
      if Ascii.eqb c " " then EmptyString :: split_space rest
      else match split_space rest with
           | w :: ws => String c w :: ws
           | [] => [String c EmptyString]
           end
  end.

(** [word.charAt(0).toUpperCase() + word.slice(1)]. *)
Definition capitalizeWord (word : string) : string :=
  match word with
  | EmptyString => EmptyString
  | String c rest => String (toUpperCase c) rest
  end.

(** [words.join(' ')]. *)
Fixpoint join_space (words : list string) : string :=
  match words with
  | [] => EmptyString
  | [w] => w
  | w :: ws => w ++ String " " (join_space ws)
  end.

Definition capitalizeFirstLetter (s : string) : string :=
  join_space (List.map capitalizeWord (split_space s)).

(** ** [createConfidenceChart] *)

(** [Array.prototype.sort(compareFn)]: a stable sort (ECMAScript 2019);
    [b] goes before [a] when [compareFn a b > 0].  Insertion from the
    right is the stable sort written out. *)
Fixpoint sort_insert {num A} `{Number num} (compareFn : A -> A -> num)
    (x : A) (l : list A) : list A :=
  match l with
  | [] => [x]
  | y :: l' =>
      if num_gt0 (compareFn x y) then y :: sort_insert compareFn x l'
      else x :: y :: l'
  end.

Fixpoint array_sort {num A} `{Number num} (compareFn : A -> A -> num)
    (l : list A) : list A :=
  match l with
  | [] => []
  | x :: l' => sort_insert compareFn x (array_sort compareFn l')
  end.

Section Confidence.
Context {num : Type} `{Number num}.

(** A JavaScript object with number values, as the list of its entries
    in the order [Object.keys] and [Object.values] enumerate them (for
    keys that are not array indices, the order of insertion). *)
Definition scores := list (string * num).

(** An element [{crop, score}] of [combinedData]. *)
Definition item := (string * num)%type.
Definition crop (i : item) : string := fst i.
Definition score (i : item) : num := snd i.

(** [(a, b) => b.score - a.score]. *)
Definition byScoreDescending (a b : item) : num :=
  num_sub (score b) (score a).

(** [combinedData] before it is sorted. *)
Definition combinedData (confidenceScores : scores) : list item :=
  let crops := List.map capitalizeFirstLetter (List.map fst confidenceScores) in
  let scores := List.map snd confidenceScores in
  List.combine crops scores.

(** [combinedData.sort(...).slice(0, k)]; the source has [k = 5]. *)
Definition topK (confidenceScores : scores) (k : nat) : list item :=
  firstn k (array_sort byScoreDescending (combinedData confidenceScores)).

(** The [data] member given to [new Chart] by [createConfidenceChart]. *)
Definition confidenceChartData (confidenceScores : scores) : chartData num :=
  let top5Crops := List.map crop (topK confidenceScores 5) in
  let top5Scores := List.map score (topK confidenceScores 5) in
  {| labels := top5Crops;
     datasets := [ {| ds_label := "Confidence Score (%)";
                      ds_data := top5Scores;
                      ds_base := None |} ] |}.

End Confidence.

(** ** Chart objects

    The three builders keep the chart they created in a global of
    [window] and destroy it before they create the next one.  A chart
    object is a number (the order of creation, as Chart.js numbers its
    charts); [instances] is the registry of Chart.js: the charts that are
    alive, each with the canvas it draws on.  [chart.destroy()] takes the
    chart out of the registry, [new Chart(ctx, ...)] enters a new one. *)

(** The canvases [confidence-chart], [parameter-chart], [range-chart]. *)
Inductive canvas : Set :=
  | ConfidenceCanvas
  | ParameterCanvas
  | RangeCanvas.

#[export] Instance canvas_eq_dec : EqDecision canvas.
Proof. solve_decision. Defined.

Record page := {
  confidenceChart : option nat;
  parameterChart : option nat;
  rangeChart : option nat;
  instances : gmap nat canvas;
  created : nat
}.

(** The page as it is loaded: the globals are undefined. *)
Definition initialPage : page :=
  {| confidenceChart := None; parameterChart := None; rangeChart := None;
     instances := ∅; created := 0 |}.

Definition destroy (chart : nat) (st : page) : page :=
  {| confidenceChart := confidenceChart st;
     parameterChart := parameterChart st;
     rangeChart := rangeChart st;
     instances := delete chart (instances st);
     created := created st |}.

Definition newChart (cv : canvas) (st : page) : nat * page :=
  let id := created st in
  (id, {| confidenceChart := confidenceChart st;
          parameterChart := parameterChart st;
          rangeChart := rangeChart st;
          instances := <[id := cv]> (instances st);
          created := S id |}).

(** [if (window.confidenceChart) { window.confidenceChart.destroy(); }]:
    an object is truthy, [undefined] is not. *)
Definition releaseConfidenceChart (st : page) : page :=
  match confidenceChart st with
  | Some chart => destroy chart st
  | None => st
  end.

Definition releaseParameterChart (st : page) : page :=
  match parameterChart st with
  | Some chart => destroy chart st
  | None => st
  end.

Definition releaseRangeChart (st : page) : page :=
  match rangeChart st with
  | Some chart => destroy chart st
  | None => st
  end.

(** The effect of [createConfidenceChart] on the page. *)
Definition createConfidenceChart (st : page) : page :=
  let st := releaseConfidenceChart st in
  let (chart, st) := newChart ConfidenceCanvas st in
  {| confidenceChart := Some chart;
     parameterChart := parameterChart st;
     rangeChart := rangeChart st;
     instances := instances st;
     created := created st |}.

(** The effect of [createParameterComparisonChart] on the page. *)
Definition createParameterComparisonChart (st : page) : page :=
  let st := releaseParameterChart st in
  let (chart, st) := newChart ParameterCanvas st in
  {| confidenceChart := confidenceChart st;
     parameterChart := Some chart;
     rangeChart := rangeChart st;
     instances := instances st;
     created := created st |}.

(** The effect of [createRangeChart] on the page. *)
Definition createRangeChart (st : page) : page :=
  let st := releaseRangeChart st in
  let (chart, st) := newChart RangeCanvas st in
  {| confidenceChart := confidenceChart st;
     parameterChart := parameterChart st;
     rangeChart := Some chart;
     instances := instances st;
     created := created st |}.

(** A redraw is a call of one of the three builders. *)
Inductive redraw : Set :=
  | RedrawConfidence
  | RedrawParameter
  | RedrawRange.

Definition canvasOf (e : redraw) : canvas :=
  match e with
  | RedrawConfidence => ConfidenceCanvas
  | RedrawParameter => ParameterCanvas
  | RedrawRange => RangeCanvas
  end.

(** The page between the [if] that destroys and the [new Chart]. *)
Definition release (e : redraw) (st : page) : page :=
  match e with
  | RedrawConfidence => releaseConfidenceChart st
  | RedrawParameter => releaseParameterChart st
  | RedrawRange => releaseRangeChart st
  end.

Definition step (e : redraw) (st : page) : page :=
  match e with
  | RedrawConfidence => createConfidenceChart st
  | RedrawParameter => createParameterComparisonChart st
  | RedrawRange => createRangeChart st
  end.

(** The redraws of a session, oldest first. *)
Fixpoint run (es : list redraw) (st : page) : page :=
  match es with
  | [] => st
  | e :: es' => run es' (step e st)
  end.

(** The global of [window] that holds the chart of a canvas. *)
Definition chartOf (cv : canvas) (st : page) : option nat :=
  match cv with
  | ConfidenceCanvas => confidenceChart st
  | ParameterCanvas => parameterChart st
  | RangeCanvas => rangeChart st
  end.

(** The live charts that draw on a canvas. *)
Definition liveOn (cv : canvas) (st : page) : gset nat :=
  dom (filter (fun e : nat * canvas => snd e = cv) (instances st)).

(** ** Vocabulary of the properties *)

(** The factor by which [normalize] stretches a difference of values. *)
Definition scale (lo hi : Q) : Q := 100 / (hi - lo).

(** The optimal interval of one key in the comparison chart:
    [normalizedOptimalMin] and [optimalRangeWidth] at that key. *)
Definition comparisonOptimal {num} `{Number num} (c : conditions num)
    (key : forall A, ByParam.t A -> A) : num * num :=
  (key num (normalizedOptimalMin c), key num (optimalRangeWidth c)).

(** The optimal intervals of the comparison chart, key by key in the
    order of the chart. *)
Definition comparisonIntervals {num} `{Number num} (c : conditions num)
    : list (num * num) :=
  List.combine (ByParam.toList (normalizedOptimalMin c))
    (ByParam.toList (optimalRangeWidth c)).

(** [capitalizeFirstLetter] read character by character: a character is
    put in upper case when it starts the string or follows a space. *)
Fixpoint capitalizeFrom (start : bool) (s : string) : string :=
  match s with
  | EmptyString => EmptyString
  | String c rest =>
      String (if start then toUpperCase c else c)
        (capitalizeFrom (Ascii.eqb c " ") rest)
  end.

(** The words of a string whose first word is already in place. *)
Definition capitalizeTail (words : list string) : list string :=
  match words with
  | [] => []
  | w :: ws => w :: List.map capitalizeWord ws
  end.

(** [a] may stand before [b] in a list in descending order of score. *)
Definition descending (a b : @item Q) : Prop := score b <= score a.

(** The items of a given score. *)
Definition hasScore (q : Q) (i : @item Q) : bool := Qeq_bool (score i) q.

(** An entry of the scores as [combinedData] holds it: the label
    capitalized, the score as it is. *)
Definition capitalizeLabel {num} (e : string * num) : string * num :=
  (capitalizeFirstLetter (fst e), snd e).

(** The scores of the specification's example. *)
Definition wheatRiceMaize : @scores Q :=
  [("wheat", 90); ("rice", 85); ("maize", 95)].

(** What holds of the page between the calls of the builders and also
    between a [destroy] and the [new Chart] that follows it: a live
    chart is the one its canvas's global holds, and was created
    earlier. *)
Record page_live_ok (st : page) : Prop := {
  live_is_held : forall h cv,
    instances st !! h = Some cv -> chartOf cv st = Some h;
  live_is_old : forall h cv,
    instances st !! h = Some cv -> (h < created st)%nat
}.

(** What holds between the calls of the builders: moreover the chart a
    global holds is alive, on the canvas of that global. *)
Record page_ok (st : page) : Prop := {
  ok_live : page_live_ok st;
  held_is_live : forall h cv,
    chartOf cv st = Some h -> instances st !! h = Some cv
}.

(** [±Infinity] or [NaN]. *)
Definition degenerate (x : float) : bool :=
  PrimFloat.is_nan x || PrimFloat.is_infinity x.

(** The same, on the decoded double. *)
Definition SFdegenerate (x : spec_float) : Prop :=
  match x with
  | S754_nan | S754_infinity _ => True
  | _ => False
  end.

(** Conditions whose optimal humidity is [[20, 40]] of [[0, 100]]. *)
Definition sampleConditions : conditions Q :=
  {| description := "";
     n_min := 60; n_max := 100;
     p_min := 35; p_max := 60;
     k_min := 35; k_max := 45;
     temperature_min := 20; temperature_max := 27;
     humidity_min := 20; humidity_max := 40;
     ph_min := 5; ph_max := 7;
     rainfall_min := 180; rainfall_max := 300 |}.






From Stdlib Require Import Qround.

(** ** The crop encyclopedia *)

(** [String.prototype.toLowerCase] on one character of an ASCII text:
    the letters [A]-[Z] are mapped, every other character is left as it
    is.  On other text JavaScript maps more letters and looks at the
    neighbours of a letter; what is stated with this function of a text
    that is not empty assumes the text to be ASCII. *)
Definition toLowerCase (c : ascii) : ascii :=
  let i := nat_of_ascii c in
  if ((65 <=? i) && (i <=? 90))%nat then ascii_of_nat (i + 32) else c.

(** [String.prototype.toLowerCase]. *)
Fixpoint toLowerCaseString (s : string) : string :=
  match s with
  | EmptyString => EmptyString
  | String c rest => String (toLowerCase c) (toLowerCaseString rest)
  end.

(** [s.includes(searchString)]: [searchString] occurs in [s]. *)
Fixpoint includes (s searchString : string) : bool :=
  String.prefix searchString s
  || match s with
     | EmptyString => false
     | String _ rest => includes rest searchString
     end.

(** The [display] style [filterCrops] gives the column of a card. *)
Inductive display : Set :=
  | DisplayBlock
  | DisplayNone.

(** The test [filterCrops] makes on a card: [filterValue] is the text of
    the filter box, [cropName] the card's [data-crop] attribute. *)
Definition cardMatches (filterValue cropName : string) : bool :=
  let filterText := toLowerCaseString filterValue in
  includes cropName filterText.

(** [filterCrops], on the [data-crop] attributes of the cards in the
    order of the document: the [display] each column is given. *)
Definition filterCrops (filterValue : string) (cropCards : list string)
  : list display :=
  List.map
    (fun cropName =>
       if cardMatches filterValue cropName then DisplayBlock else DisplayNone)
    cropCards.

(** [cropImages] of [createCropCard]. *)
Definition cropImages : list string :=
  [ "https://images.unsplash.com/photo-1583602096973-37ca0307326d";
    "https://images.unsplash.com/photo-1528839390497-a161db4bac71";
    "https://images.unsplash.com/photo-1516234137022-7d61576807db";
    "https://images.unsplash.com/photo-1530267981375-f0de937f5f13";
    "https://images.unsplash.com/photo-1527762031550-522c5d9240fd";
    "https://images.unsplash.com/photo-1534940519139-f860fb3c6e38" ].

(** [cropImages[index % cropImages.length]]; [None] is [undefined]. *)
Definition imageUrl (index : nat) : option string :=
  nth_error cropImages (index mod length cropImages).

(** The string the template of a card receives for the description:
    [conditions.description.substring(0, 100)] followed by the dots of
    the template.  It is the source of the paragraph, which [innerHTML]
    then parses.  A position counts a character of the model, which is
    a code unit of JavaScript when the description is ASCII. *)
Definition cardText (description : string) : string :=
  String.substring 0 100 description ++ "...".

(** ** The list of crops *)

(** The comparison [Array.prototype.sort] makes without a comparison
    function: the order of the strings, code unit by code unit, as a
    number below, at or above zero.  The characters of the model are
    compared; for ASCII strings they are the code units. *)
Definition defaultCompare (x y : string) : Q :=
  match String.compare x y with
  | Lt => -1
  | Eq => 0
  | Gt => 1
  end.

(** An [<option>] that [loadCropOptions] appends to the list. *)
Record optionElement := {
  option_value : string;
  option_textContent : string
}.

(** [loadCropOptions] on the [crops] of a successful answer: the
    options it appends, in their order. *)
Definition loadCropOptions (crops : list string) : list optionElement :=
  let crops := array_sort defaultCompare crops in
  List.map
    (fun crop => {| option_value := crop;
                    option_textContent := capitalizeFirstLetter crop |})
    crops.

(** ** Texts of the tooltips and of the tables *)

(** [object[key]] on an object literal; [None] is [undefined]. *)
Fixpoint property {V} (object : list (string * V)) (key : string) : option V :=
  match object with
  | [] => None
  | (k, v) :: rest => if String.eqb k key then Some v else property rest key
  end.

(** [object[key]] when the key itself may be [undefined]: the key is
    then the string [undefined]. *)
Definition propertyAt {V} (object : list (string * V)) (key : option string)
  : option V :=
  property object (match key with Some k => k | None => "undefined" end).

(** [paramMap], [unitMap] and [paramNameMap] of the tooltip of the
    comparison chart. *)
Definition paramMap : list (string * string) :=
  [("Nitrogen", "n"); ("Phosphorus", "p"); ("Potassium", "k");
   ("Temperature", "temp"); ("Humidity", "humidity"); ("pH", "ph");
   ("Rainfall", "rainfall")].

Definition unitMap : list (string * string) :=
  [("n", "kg/ha"); ("p", "kg/ha"); ("k", "kg/ha"); ("temp", "°C");
   ("humidity", "%"); ("ph", ""); ("rainfall", "mm")].

Definition paramNameMap : list (string * string) :=
  [("n", "n"); ("p", "p"); ("k", "k"); ("temp", "temperature");
   ("humidity", "humidity"); ("ph", "ph"); ("rainfall", "rainfall")].

(** A row of the table [updateParameterTable] fills. *)
Record parameterRow := {
  row_name : string;
  row_value : string;
  row_optimal : string
}.

(** The entries of [parameters] in [updateParameterTable]:
    [id], [name], [unit], [min], [max]. *)
Definition tableParameters
  : list (string * string * string * string * string) :=
  [ ("nitrogen", "Nitrogen (N)", "kg/ha", "n_min", "n_max");
    ("phosphorus", "Phosphorus (P)", "kg/ha", "p_min", "p_max");
    ("potassium", "Potassium (K)", "kg/ha", "k_min", "k_max");
    ("temperature", "Temperature", "°C", "temperature_min",
     "temperature_max");
    ("humidity", "Humidity", "%", "humidity_min", "humidity_max");
    ("ph", "pH", "", "ph_min", "ph_max");
    ("rainfall", "Rainfall", "mm", "rainfall_min", "rainfall_max") ].

Section Texts.
Context {num : Type}.

(** The text of a number in a template literal. *)
Variable numberToString : num -> string.

(** The text of a value that may be [undefined]. *)
Definition numberText (v : option num) : string :=
  match v with
  | Some x => numberToString x
  | None => "undefined"
  end.

Definition stringText (v : option string) : string :=
  match v with
  | Some s => s
  | None => "undefined"
  end.

(** [userValues[key]]. *)
Definition userValue (userValues : ByParam.t num) (key : option string)
  : option num :=
  propertyAt
    [("n", ByParam.n userValues); ("p", ByParam.p userValues);
     ("k", ByParam.k userValues); ("temp", ByParam.temp userValues);
     ("humidity", ByParam.humidity userValues);
     ("ph", ByParam.ph userValues);
     ("rainfall", ByParam.rainfall userValues)]
    key.

(** [conditions[key]], on the numbers of the conditions. *)
Definition condition (c : conditions num) (key : string) : option num :=
  property
    [("n_min", n_min c); ("n_max", n_max c);
     ("p_min", p_min c); ("p_max", p_max c);
     ("k_min", k_min c); ("k_max", k_max c);
     ("temperature_min", temperature_min c);
     ("temperature_max", temperature_max c);
     ("humidity_min", humidity_min c); ("humidity_max", humidity_max c);
     ("ph_min", ph_min c); ("ph_max", ph_max c);
     ("rainfall_min", rainfall_min c); ("rainfall_max", rainfall_max c)]
    key.

(** The [label] callback of the tooltip of the comparison chart, for
    the bar under [label] of the dataset number [datasetIndex]. *)
Definition parameterTooltip (userValues : ByParam.t num)
    (c : conditions num) (label : string) (datasetIndex : nat) : string :=
  let param := property paramMap label in
  let unit := propertyAt unitMap param in
  if Nat.eqb datasetIndex 0 then
    "Your value: " ++ numberText (userValue userValues param) ++ " "
    ++ stringText unit
  else
    let name := stringText (propertyAt paramNameMap param) in
    let conditionMin := condition c (name ++ "_min") in
    let conditionMax := condition c (name ++ "_max") in
    "Optimal range: " ++ numberText conditionMin ++ " - "
    ++ numberText conditionMax ++ " " ++ stringText unit.

(** The [label] callback of the tooltip of the range chart, for the bar
    number [index]; [None] when [data[index]] is [undefined] and reading
    its [minValue] raises. *)
Definition rangeTooltip `{Number num} (c : conditions num) (index : nat)
  : option string :=
  match nth_error (rangeData c) index with
  | Some d =>
      Some ("Optimal range: " ++ numberToString (minValue d) ++ " - "
            ++ numberToString (maxValue d) ++ " " ++ rd_unit d)
  | None => None
  end.

(** The rows [updateParameterTable] puts in the table; [formData] gives
    the text of a field of the form, [None] for [null]. *)
Definition updateParameterTable (formData : string -> option string)
    (c : conditions num) : list parameterRow :=
  List.map
    (fun '(id, name, unit, min, max) =>
       let value := match formData id with
                    | Some v => v
                    | None => "null"
                    end in
       {| row_name := name;
          row_value := value ++ " " ++ unit;
          row_optimal :=
            "Optimal: " ++ numberText (condition c min) ++ " - "
            ++ numberText (condition c max) ++ " " ++ unit |})
    tableParameters.

End Texts.

(** ** The confidence of the recommended crop *)

(** [Math.round]: the nearest integer, a half going up. *)
Definition Math_round (x : Q) : Z := Qfloor (x + (1 # 2)).

(** [confidenceValue] of [displayResults]: [confidence] is
    [data.confidence_scores[data.crop]], [None] when the crop is not a
    key of the scores; a number is rounded and what is not a number
    gives the text [N/A]. *)
Definition confidenceValue (confidence_scores : @scores Q) (crop : string)
  : Z + string :=
  let confidence := property confidence_scores crop in
  match confidence with
  | Some q => inl (Math_round q)
  | None => inr "N/A"
  end.

(** ** The colours of the confidence chart *)

(** The [backgroundColor] (and [borderColor]) array of the dataset of
    [createConfidenceChart], one colour per bar. *)
Definition confidenceColors : list string :=
  let primaryColor := "#2E7D32" in
  let secondaryColor := "#8BC34A" in
  let accentColor := "#FFA000" in
  let otherColors := ["#4CAF50"; "#81C784"] in
  [primaryColor; secondaryColor; accentColor] ++ otherColors.

(** ** Vocabulary of the further properties *)

(** A text of ASCII characters, those below 128: for such a text the
    characters of the model are the code units of JavaScript, and case
    mapping, positions and order are those of the model. *)
Definition isASCIIChar (c : ascii) : bool := (nat_of_ascii c <? 128)%nat.

Fixpoint isASCII (s : string) : bool :=
  match s with
  | EmptyString => true
  | String c rest => isASCIIChar c && isASCII rest
  end.

(** The fields of the form [createParameterComparisonChart] reads for
    the values of the user, key by key. *)
Definition formFields : ByParam.t string :=
  ByParam.mk "nitrogen" "phosphorus" "potassium" "temperature" "humidity"
    "ph" "rainfall".

(** The text of a field of the form in a template literal. *)
Definition fieldText (v : option string) : string :=
  match v with
  | Some s => s
  | None => "null"
  end.

(** Position [i] of [s] starts a word: it is the first position or
    follows a space. *)
Definition startsWord (i : nat) (s : string) : bool :=
  match i with
  | O => true
  | S j => match String.get j s with
           | Some c => Ascii.eqb c " "
           | None => false
           end
  end.

(** A word has a space in it. *)
Fixpoint hasSpace (w : string) : bool :=
  match w with
  | EmptyString => false
  | String c rest => Ascii.eqb c " " || hasSpace rest
  end.

(** The optimal interval of a parameter lies in its total range. *)
Definition withinTotalRange (q : parameter Q) : Prop :=
  fst (param_totalRange q) <= param_min q
  /\ param_min q <= param_max q
  /\ param_max q <= snd (param_totalRange q).

(** A bar that starts at [start] and is [width] wide fits the axis of
    the chart, which runs from 0 to 100. *)
Definition fitsAxis (start width : Q) : Prop :=
  0 <= start /\ 0 <= width /\ start + width <= 100.

(** The values of the form lie in the total ranges of [ranges]. *)
Definition userWithinRanges (userValues : ByParam.t Q) : Prop :=
  Forall2 (fun value r => fst r <= value /\ value <= snd r)
    (ByParam.toList userValues) (ByParam.toList ranges).

(** * Properties *)

(** ** The normalizer in exact arithmetic *)

Section ExactNormalizer.

#[local] Open Scope Q_scope.

Lemma scale_pos (lo hi : Q) : lo < hi -> 0 < scale lo hi.
Proof.
  intros Hlt. unfold scale.
  apply Qlt_shift_div_l; lra.
Qed.

Lemma normalize_scale (value lo hi : Q) :
  lo < hi -> normalize value lo hi == (value - lo) * scale lo hi.
Proof.
  intros Hlt. unfold normalize, scale; simpl.
  field. lra.
Qed.

Lemma normalize_difference (v w lo hi : Q) :
  lo < hi ->
  normalize v lo hi - normalize w lo hi == (v - w) * scale lo hi.
Proof.
  intros Hlt. rewrite !normalize_scale by assumption. ring.
Qed.

Lemma normalize_lt (v w lo hi : Q) :
  lo < hi -> v < w -> normalize v lo hi < normalize w lo hi.
Proof.
  intros Hlt Hvw.
  pose proof (scale_pos lo hi Hlt) as Hs.
  pose proof (normalize_difference w v lo hi Hlt) as Hd.
  assert (0 < (w - v) * scale lo hi) as Hp.
  { apply Qmult_lt_0_compat; lra. }
  lra.
Qed.

Lemma normalize_at_lo (lo hi : Q) : lo < hi -> normalize lo lo hi == 0.
Proof.
  intros Hlt. rewrite normalize_scale by assumption. ring.
Qed.

Lemma normalize_at_hi (lo hi : Q) : lo < hi -> normalize hi lo hi == 100.
Proof.
  intros Hlt. unfold normalize; simpl. field. lra.
Qed.


End ExactNormalizer.

(** C2.  [normalizeInterval min max lo hi] is the pair of
    [normalize min lo hi] and
    [normalize max lo hi - normalize min lo hi], at both places where
    the source computes it: every datum of the range chart and every key
    of the comparison chart is such a pair.  [normalizeInterval 20 40 0
    100] is [(20, 20)], in exact arithmetic and in doubles. *)
Theorem normalizeInterval_spec {num} `{Number num} (min max lo hi : num)
    (c : conditions num) :
  normalizeInterval min max lo hi
    = (normalize min lo hi,
       num_sub (normalize max lo hi) (normalize min lo hi))
  /\ comparisonInterval min max lo hi = normalizeInterval min max lo hi
  /\ List.map (fun d => (startPosition d, rangeWidth d)) (rangeData c)
     = List.map (fun q => normalizeInterval (param_min q) (param_max q)
                            (fst (param_totalRange q))
                            (snd (param_totalRange q)))
         (parameters c)
  /\ comparisonIntervals c
     = List.map (fun q => normalizeInterval (param_min q) (param_max q)
                            (fst (param_totalRange q))
                            (snd (param_totalRange q)))
         (parameters c)
  /\ comparisonOptimal c (@ByParam.humidity)
     = normalizeInterval (humidity_min c) (humidity_max c)
         (num_lit 0) (num_lit 100)
  /\ (fst (normalizeInterval (20 : Q) 40 0 100) == 20
      /\ snd (normalizeInterval (20 : Q) 40 0 100) == 20)
  /\ normalizeInterval (float_lit 20) (float_lit 40)
       (float_lit 0) (float_lit 100)
     = (float_lit 20, float_lit 20).
Proof.
  repeat split; reflexivity.
Qed.

(** ** Labels *)

Lemma toUpperCase_idempotent (c : ascii) :
  toUpperCase (toUpperCase c) = toUpperCase c.
Proof.
  destruct c as [[] [] [] [] [] [] [] []]; reflexivity.
Qed.

Lemma toUpperCase_space (c : ascii) :
  Ascii.eqb (toUpperCase c) " " = Ascii.eqb c " ".
Proof.
  destruct c as [[] [] [] [] [] [] [] []]; reflexivity.
Qed.

Lemma split_space_nonempty (s : string) : split_space s <> [].
Proof.
  destruct s as [|c rest]; simpl; [discriminate|].
  destruct (Ascii.eqb c " "); [discriminate|].
  destruct (split_space rest); discriminate.
Qed.

Lemma join_space_cons_char (c : ascii) (w : string) (ws : list string) :
  join_space (String c w :: ws) = String c (join_space (w :: ws)).
Proof.
  destruct ws; reflexivity.
Qed.

Lemma join_space_empty_first (ws : list string) :
  ws <> [] -> join_space (EmptyString :: ws) = String " " (join_space ws).
Proof.
  destruct ws; [congruence | reflexivity].
Qed.

Lemma capitalize_by_character (s : string) :
  join_space (List.map capitalizeWord (split_space s)) = capitalizeFrom true s
  /\ join_space (capitalizeTail (split_space s)) = capitalizeFrom false s.
Proof.
  induction s as [|c rest [IHtrue IHfalse]]; [split; reflexivity|].
  pose proof (split_space_nonempty rest) as Hne.
  simpl split_space. simpl capitalizeFrom.
  destruct (Ascii.eqb c " ") eqn:Hc.
  - apply Ascii.eqb_eq in Hc. subst c.
    assert (List.map capitalizeWord (split_space rest) <> []) as Hne'.
    { destruct (split_space rest); [congruence | discriminate]. }
    change (toUpperCase " ") with " "%char.
    cbn [List.map capitalizeWord capitalizeTail].
    rewrite (join_space_empty_first _ Hne'), IHtrue. split; reflexivity.
  - destruct (split_space rest) as [|w ws]; [congruence|].
    simpl List.map. simpl capitalizeTail in *.
    rewrite !join_space_cons_char, IHfalse. split; reflexivity.
Qed.

Lemma capitalizeFrom_idempotent (s : string) (start : bool) :
  capitalizeFrom start (capitalizeFrom start s) = capitalizeFrom start s.
Proof.
  revert start. induction s as [|c rest IH]; intros start; [reflexivity|].
  simpl. destruct start.
  - rewrite toUpperCase_idempotent, toUpperCase_space, IH. reflexivity.
  - rewrite IH. reflexivity.
Qed.

Lemma capitalizeFirstLetter_idempotent (s : string) :
  capitalizeFirstLetter (capitalizeFirstLetter s) = capitalizeFirstLetter s.
Proof.
  unfold capitalizeFirstLetter.
  rewrite !(proj1 (capitalize_by_character _)).
  apply capitalizeFrom_idempotent.
Qed.

(** ** Sorting *)

Section SortAnyComparison.
Context {num A : Type} `{Number num} (compareFn : A -> A -> num).

Lemma sort_insert_perm (x : A) (l : list A) :
  Permutation (sort_insert compareFn x l) (x :: l).
Proof.
  induction l as [|y l IH]; simpl; [reflexivity|].
  destruct (num_gt0 (compareFn x y)); [|reflexivity].
  rewrite IH. apply perm_swap.
Qed.

Lemma array_sort_perm (l : list A) : Permutation (array_sort compareFn l) l.
Proof.
  induction l as [|x l IH]; simpl; [reflexivity|].
  rewrite sort_insert_perm, IH. reflexivity.
Qed.

Lemma array_sort_length (l : list A) :
  length (array_sort compareFn l) = length l.
Proof.
  apply Permutation_length, array_sort_perm.
Qed.

End SortAnyComparison.

Lemma combinedData_map {num} `{Number num} (s : scores) :
  combinedData s
  = List.map (fun e : string * num => (capitalizeFirstLetter (fst e), snd e)) s.
Proof.
  unfold combinedData.
  induction s as [|[label sc] s IH]; simpl; [reflexivity|].
  rewrite IH. reflexivity.
Qed.

Lemma topK_length {num} `{Number num} (s : scores) (k : nat) :
  length (topK s k) = Nat.min k (length s).
Proof.
  unfold topK.
  rewrite List.length_firstn, array_sort_length, combinedData_map,
    List.length_map.
  reflexivity.
Qed.

Section SortByScore.

#[local] Open Scope Q_scope.

Lemma byScoreDescending_gt0 (a b : @item Q) :
  num_gt0 (byScoreDescending a b) = true <-> score a < score b.
Proof.
  unfold byScoreDescending; simpl.
  destruct (0 ?= score b - score a) eqn:Hc.
  - apply Qeq_alt in Hc. split; [discriminate | intros; lra].
  - apply Qlt_alt in Hc. split; [intros; lra | reflexivity].
  - apply Qgt_alt in Hc. split; [discriminate | intros; lra].
Qed.

Lemma byScoreDescending_not_gt0 (a b : @item Q) :
  num_gt0 (byScoreDescending a b) = false <-> score b <= score a.
Proof.
  pose proof (byScoreDescending_gt0 a b) as Hgt.
  destruct (num_gt0 (byScoreDescending a b)).
  - split; [discriminate|]. intros Hle.
    assert (score a < score b) by (apply Hgt; reflexivity). lra.
  - split; [|reflexivity]. intros _.
    destruct (Qlt_le_dec (score a) (score b)) as [Hlt|Hle]; [|exact Hle].
    apply Hgt in Hlt. discriminate.
Qed.

Lemma sort_insert_sorted (x : @item Q) (l : list item) :
  StronglySorted descending l ->
  StronglySorted descending (sort_insert byScoreDescending x l).
Proof.
  induction l as [|y l IH]; intros Hs; cbn [sort_insert].
  - constructor; constructor.
  - apply StronglySorted_inv in Hs. destruct Hs as [Hl Hy].
    destruct (num_gt0 (byScoreDescending x y)) eqn:Hc.
    + apply byScoreDescending_gt0 in Hc.
      constructor; [apply IH; exact Hl|].
      apply (Permutation_Forall (Permutation_sym (sort_insert_perm _ x l))).
      constructor; [|exact Hy].
      unfold descending. lra.
    + apply byScoreDescending_not_gt0 in Hc.
      constructor; [constructor; assumption|].
      constructor; [exact Hc|].
      rewrite Forall_forall in *. intros z Hz.
      specialize (Hy z Hz). unfold descending in *. lra.
Qed.

Lemma array_sort_sorted (l : list (@item Q)) :
  StronglySorted descending (array_sort byScoreDescending l).
Proof.
  induction l as [|x l IH]; simpl; [constructor|].
  apply sort_insert_sorted, IH.
Qed.

Lemma sort_insert_stable (q : Q) (x : @item Q) (l : list item) :
  List.filter (hasScore q) (sort_insert byScoreDescending x l)
  = List.filter (hasScore q) (x :: l).
Proof.
  induction l as [|y l IH]; [reflexivity|].
  cbn [sort_insert].
  destruct (num_gt0 (byScoreDescending x y)) eqn:Hc; [|reflexivity].
  apply byScoreDescending_gt0 in Hc.
  cbn [List.filter] in *. rewrite IH.
  destruct (hasScore q x) eqn:Hx; [|reflexivity].
  destruct (hasScore q y) eqn:Hy; [|reflexivity].
  unfold hasScore in Hx, Hy.
  apply Qeq_bool_iff in Hx. apply Qeq_bool_iff in Hy. lra.
Qed.

Lemma array_sort_stable (q : Q) (l : list (@item Q)) :
  List.filter (hasScore q) (array_sort byScoreDescending l)
  = List.filter (hasScore q) l.
Proof.
  induction l as [|x l IH]; [reflexivity|].
  cbn [array_sort]. rewrite sort_insert_stable.
  cbn [List.filter]. rewrite IH. reflexivity.
Qed.

Lemma array_sort_sorted_fixed (l : list (@item Q)) :
  StronglySorted descending l -> array_sort byScoreDescending l = l.
Proof.
  induction l as [|x l IH]; intros Hs; [reflexivity|].
  apply StronglySorted_inv in Hs. destruct Hs as [Hl Hx].
  cbn [array_sort]. rewrite (IH Hl).
  destruct l as [|y l]; [reflexivity|].
  cbn [sort_insert]. apply Forall_inv in Hx.
  apply byScoreDescending_not_gt0 in Hx. rewrite Hx. reflexivity.
Qed.

Lemma firstn_In {A} (k : nat) (l : list A) (z : A) :
  In z (firstn k l) -> In z l.
Proof.
  revert k. induction l as [|x l IH]; intros [|k]; simpl; try tauto.
  intros [Hz|Hz]; [left; exact Hz | right; exact (IH k Hz)].
Qed.

Lemma firstn_sorted (k : nat) (l : list (@item Q)) :
  StronglySorted descending l -> StronglySorted descending (firstn k l).
Proof.
  revert k. induction l as [|x l IH]; intros k Hs.
  - destruct k; constructor.
  - destruct k; [constructor|].
    apply StronglySorted_inv in Hs. destruct Hs as [Hl Hx].
    simpl. constructor; [apply IH; exact Hl|].
    rewrite List.Forall_forall in *. intros z Hz.
    apply Hx. exact (firstn_In k l z Hz).
Qed.

End SortByScore.

(** ** [topK] *)

Lemma capitalizeLabel_idempotent {num} (e : string * num) :
  capitalizeLabel (capitalizeLabel e) = capitalizeLabel e.
Proof.
  unfold capitalizeLabel; simpl.
  rewrite capitalizeFirstLetter_idempotent. reflexivity.
Qed.

Lemma topK_labels_capitalized (s : @scores Q) (k : nat) (x : item) :
  In x (topK s k) -> capitalizeLabel x = x.
Proof.
  intros Hx. apply firstn_In in Hx.
  apply (Permutation_in _ (array_sort_perm byScoreDescending _)) in Hx.
  rewrite combinedData_map in Hx. apply List.in_map_iff in Hx.
  destruct Hx as [e [He _]]. subst x.
  apply capitalizeLabel_idempotent.
Qed.

Lemma topK_sorted (s : @scores Q) (k : nat) :
  StronglySorted descending (topK s k).
Proof.
  apply firstn_sorted, array_sort_sorted.
Qed.

Lemma topK_of_sorted (s : @scores Q) (k : nat) :
  StronglySorted descending (List.map capitalizeLabel s) ->
  (length s <= k)%nat ->
  topK s k = List.map capitalizeLabel s.
Proof.
  intros Hs Hk. unfold topK.
  rewrite combinedData_map.
  change (fun e : string * Q => (capitalizeFirstLetter (fst e), snd e))
    with (@capitalizeLabel Q).
  rewrite (array_sort_sorted_fixed _ Hs).
  apply List.firstn_all2. rewrite List.length_map. exact Hk.
Qed.

Lemma descending_capitalizeLabel (s : @scores Q) :
  StronglySorted descending s ->
  StronglySorted descending (List.map capitalizeLabel s).
Proof.
  induction 1 as [|x l Hl IH Hx]; simpl; constructor; [exact IH|].
  rewrite List.Forall_forall in *. intros z Hz.
  apply List.in_map_iff in Hz. destruct Hz as [e [He Hin]]. subst z.
  exact (Hx e Hin).
Qed.

(** C4, as the code has it.  [topK s k] is the first [k] entries (all of
    them when there are fewer) of the list that holds every entry of [s]
    with its label capitalized, in descending order of score, entries of
    equal score in the order of [s].  On [{wheat: 90, rice: 85, maize:
    95}] and [k = 2] it is [[(Maize, 95); (Wheat, 90)]]; on [{a: 50, b:
    50}] the entries stay in their order. *)
Theorem topK_spec (s : @scores Q) (k : nat) :
  (exists rest : list item,
     Permutation (topK s k ++ rest) (List.map capitalizeLabel s)
     /\ StronglySorted descending (topK s k ++ rest)
     /\ (forall q : Q,
           List.filter (hasScore q) (topK s k ++ rest)
           = List.filter (hasScore q) (List.map capitalizeLabel s)))
  /\ length (topK s k) = Nat.min k (length s)
  /\ topK wheatRiceMaize 2 = [("Maize", 95); ("Wheat", 90)]
  /\ topK [("a", 50); ("b", 50)] 2 = [("A", 50); ("B", 50)].
Proof.
  split; [|split; [apply topK_length | split; reflexivity]].
  exists (skipn k (array_sort byScoreDescending (combinedData s))).
  unfold topK. rewrite List.firstn_skipn.
  replace (List.map capitalizeLabel s) with (combinedData s)
    by apply combinedData_map.
  split; [apply array_sort_perm|].
  split; [apply array_sort_sorted|].
  intros q. apply array_sort_stable.
Qed.

(** C4 as stated fails on the labels: the code capitalizes them. *)
Lemma topK_keeps_labels_counterexample :
  topK wheatRiceMaize 2 <> [("maize", 95); ("wheat", 90)].
Proof.
  discriminate.
Qed.

(** C8, as the code has it.  On entries already in descending order and
    no more than [k] of them, [topK] returns them in their order with the
    labels capitalized, and so unchanged when the labels are capitalized
    already; [topK] of a result of [topK] is that result. *)
Theorem topK_idempotent (s : @scores Q) (k : nat) :
  (StronglySorted descending s -> (length s <= k)%nat ->
   topK s k = List.map capitalizeLabel s
   /\ ((forall e, In e s -> capitalizeFirstLetter (fst e) = fst e) ->
       topK s k = s))
  /\ topK (topK s k) k = topK s k.
Proof.
  split.
  - intros Hs Hk.
    assert (topK s k = List.map capitalizeLabel s) as Heq.
    { apply topK_of_sorted; [apply descending_capitalizeLabel|]; assumption. }
    split; [exact Heq|].
    intros Hcap. rewrite Heq.
    rewrite <- (List.map_id s) at 2. apply List.map_ext_in.
    intros [label sc] Hin. unfold capitalizeLabel.
    rewrite (Hcap _ Hin). reflexivity.
  - assert (List.map capitalizeLabel (topK s k) = topK s k) as Hfix.
    { rewrite <- (List.map_id (topK s k)) at 2. apply List.map_ext_in.
      intros x Hx. exact (topK_labels_capitalized s k x Hx). }
    rewrite (topK_of_sorted (topK s k) k).
    + exact Hfix.
    + rewrite Hfix. apply topK_sorted.
    + rewrite topK_length. apply Nat.le_min_l.
Qed.

Lemma topK_idempotent_witness :
  topK [("Maize", 95); ("Wheat", 90)] 5 = [("Maize", 95); ("Wheat", 90)]
  /\ topK (topK wheatRiceMaize 2) 2 = topK wheatRiceMaize 2.
Proof.
  split.
  - refine (proj2 (proj1 (topK_idempotent [("Maize", 95); ("Wheat", 90)] 5)
                     _ _) _).
    + repeat constructor; discriminate.
    + simpl; lia.
    + intros e [He|[He|[]]]; subst e; reflexivity.
  - apply (topK_idempotent wheatRiceMaize 2).
Defined.

(** C8 as stated fails on the labels: a sorted input of length [1 <= 1]
    does not come back unchanged. *)
Lemma topK_unchanged_counterexample :
  StronglySorted descending [("maize", 95)]
  /\ (length [("maize", 95 : Q)] <= 1)%nat
  /\ topK [("maize", 95)] 1 <> [("maize", 95)].
Proof.
  split; [repeat constructor|].
  split; [simpl; lia | discriminate].
Qed.

(** ** Chart objects *)

Section PageInvariant.

#[local] Open Scope nat_scope.

Lemma elem_of_liveOn (cv : canvas) (st : page) (h : nat) :
  h ∈ liveOn cv st <-> instances st !! h = Some cv.
Proof.
  unfold liveOn. rewrite elem_of_dom. unfold is_Some.
  setoid_rewrite map_lookup_filter_Some. simpl.
  split.
  - intros [c [Hc Heq]]. congruence.
  - intros Hc. exists cv. split; [exact Hc | reflexivity].
Qed.

Lemma liveOn_at_most_one (cv : canvas) (st : page) :
  page_live_ok st -> size (liveOn cv st) <= 1.
Proof.
  intros [Hheld _].
  destruct (chartOf cv st) as [h|] eqn:Hg.
  - transitivity (size ({[h]} : gset nat)); [|rewrite size_singleton; lia].
    apply subseteq_size. intros h' Hh'.
    apply elem_of_liveOn, Hheld in Hh'. set_solver.
  - assert (liveOn cv st = ∅) as ->; [|rewrite size_empty; lia].
    apply set_eq. intros h'. rewrite elem_of_liveOn. split; [|set_solver].
    intros Hh'. apply Hheld in Hh'. congruence.
Qed.

Lemma initialPage_ok : page_ok initialPage.
Proof.
  split; [split|]; simpl.
  - intros h cv. rewrite lookup_empty. discriminate.
  - intros h cv. rewrite lookup_empty. discriminate.
  - intros h [] Hg; discriminate.
Qed.

Lemma chartOf_destroy (cv : canvas) (h : nat) (st : page) :
  chartOf cv (destroy h st) = chartOf cv st.
Proof. destruct cv; reflexivity. Qed.

Lemma chartOf_release (cv : canvas) (e : redraw) (st : page) :
  chartOf cv (release e st) = chartOf cv st.
Proof.
  destruct e; simpl;
    unfold releaseConfidenceChart, releaseParameterChart, releaseRangeChart;
    match goal with |- context [match ?g with _ => _ end] => destruct g end;
    try reflexivity; apply chartOf_destroy.
Qed.

Lemma release_instances (e : redraw) (st : page) :
  instances (release e st)
  = match chartOf (canvasOf e) st with
    | Some h => delete h (instances st)
    | None => instances st
    end.
Proof.
  destruct e; simpl;
    unfold releaseConfidenceChart, releaseParameterChart, releaseRangeChart;
    match goal with |- context [match ?g with _ => _ end] => destruct g end;
    reflexivity.
Qed.

Lemma release_created (e : redraw) (st : page) :
  created (release e st) = created st.
Proof.
  destruct e; simpl;
    unfold releaseConfidenceChart, releaseParameterChart, releaseRangeChart;
    match goal with |- context [match ?g with _ => _ end] => destruct g end;
    reflexivity.
Qed.

Lemma release_lookup (e : redraw) (st : page) (h : nat) (cv : canvas) :
  instances (release e st) !! h = Some cv -> instances st !! h = Some cv.
Proof.
  rewrite release_instances.
  destruct (chartOf (canvasOf e) st) as [h0|]; [|trivial].
  rewrite lookup_delete_Some. tauto.
Qed.

Lemma release_live_ok (e : redraw) (st : page) :
  page_live_ok st -> page_live_ok (release e st).
Proof.
  intros [Hheld Hold]. split; intros h cv Hl.
  - rewrite chartOf_release. apply Hheld, (release_lookup e), Hl.
  - rewrite release_created. apply (Hold h cv), (release_lookup e), Hl.
Qed.

Lemma release_clears (e : redraw) (st : page) :
  page_live_ok st -> liveOn (canvasOf e) (release e st) = ∅.
Proof.
  intros [Hheld _]. apply set_eq. intros h.
  rewrite elem_of_liveOn, release_instances. split; [|set_solver].
  destruct (chartOf (canvasOf e) st) as [h0|] eqn:Hg.
  - rewrite lookup_delete_Some. intros [Hne Hl].
    apply Hheld in Hl. congruence.
  - intros Hl. apply Hheld in Hl. congruence.
Qed.


Lemma step_instances (e : redraw) (st : page) :
  instances (step e st)
  = <[created st := canvasOf e]> (instances (release e st)).
Proof.
  rewrite <- (release_created e st). destruct e; reflexivity.
Qed.

Lemma step_created (e : redraw) (st : page) :
  created (step e st) = S (created st).
Proof.
  rewrite <- (release_created e st). destruct e; reflexivity.
Qed.

Lemma chartOf_step (cv : canvas) (e : redraw) (st : page) :
  chartOf cv (step e st)
  = if decide (cv = canvasOf e) then Some (created st) else chartOf cv st.
Proof.
  rewrite <- (release_created e st), <- (chartOf_release cv e st).
  destruct e, cv; reflexivity.
Qed.

Lemma step_ok (e : redraw) (st : page) : page_ok st -> page_ok (step e st).
Proof.
  intros [Hlive Hheld].
  pose proof (release_live_ok e st Hlive) as [Hheld' Hold'].
  pose proof (release_clears e st Hlive) as Hclear.
  rewrite release_created in Hold'.
  split; [split|]; intros h cv; rewrite ?step_instances, ?chartOf_step.
  - rewrite lookup_insert_Some. intros [[<- <-]|[Hne Hl]].
    + rewrite decide_True; reflexivity.
    + case_decide as Hcv.
      * subst cv. apply elem_of_liveOn in Hl. rewrite Hclear in Hl.
        set_solver.
      * rewrite <- (chartOf_release cv e st). apply Hheld', Hl.
  - rewrite step_created, lookup_insert_Some. intros [[<- <-]|[Hne Hl]].
    + lia.
    + pose proof (Hold' h cv Hl). lia.
  - case_decide as Hcv.
    + intros [= <-]. subst cv. apply lookup_insert_eq.
    + intros Hg. pose proof (Hheld h cv Hg) as Hl.
      destruct Hlive as [_ Hold]. pose proof (Hold h cv Hl) as Hlt.
      rewrite lookup_insert_ne by lia.
      rewrite release_instances.
      destruct (chartOf (canvasOf e) st) as [h0|] eqn:Hg0; [|exact Hl].
      rewrite lookup_delete_ne; [exact Hl|].
      intros ->. apply Hheld in Hg0. congruence.
Qed.

Lemma run_ok (es : list redraw) (st : page) : page_ok st -> page_ok (run es st).
Proof.
  revert st. induction es as [|e es IH]; intros st Hok; [exact Hok|].
  simpl. apply IH, step_ok, Hok.
Qed.


End PageInvariant.


(** ** Degenerate ranges in doubles *)

Lemma degenerate_decoded (x : float) :
  SFdegenerate (Prim2SF x) -> degenerate x = true.
Proof.
  unfold degenerate, PrimFloat.is_nan, PrimFloat.is_infinity.
  rewrite !FloatAxioms.eqb_spec, FloatAxioms.abs_spec.
  destruct (Prim2SF x) as [s|s| |s m e]; simpl; try contradiction;
    intros _; [|reflexivity].
  apply orb_true_r.
Qed.

Lemma SFsub_diag (x : spec_float) :
  SF64sub x x = S754_zero false \/ SF64sub x x = S754_nan.
Proof.
  destruct x as [[]|[]| |s m e]; simpl; auto.
  left. unfold SF64sub, SFsub. rewrite Z.sub_diag. reflexivity.
Qed.

Lemma SFdiv_by_zero (x y : spec_float) :
  y = S754_zero false \/ y = S754_nan -> SFdegenerate (SF64div x y).
Proof.
  intros [->| ->]; destruct x as [s|s| |s m e]; simpl; exact I.
Qed.

Lemma SFmul_100 (x : spec_float) :
  SFdegenerate x -> SFdegenerate (SF64mul x (Prim2SF (float_lit 100))).
Proof.
  destruct x as [s|s| |s m e]; simpl; try contradiction; intros _; exact I.
Qed.

Lemma SFsub_degenerate (x y : spec_float) :
  SFdegenerate x -> SFdegenerate y -> SFdegenerate (SF64sub x y).
Proof.
  destruct x as [s|[]| |s m e]; simpl; try contradiction; intros _;
    destruct y as [s'|[]| |s' m' e']; simpl; try contradiction; intros _;
    exact I.
Qed.

Lemma normalize_decoded_degenerate (value lo : float) :
  SFdegenerate (Prim2SF (normalize value lo lo)).
Proof.
  unfold normalize; simpl.
  rewrite FloatAxioms.mul_spec. apply SFmul_100.
  rewrite FloatAxioms.div_spec. apply SFdiv_by_zero.
  rewrite FloatAxioms.sub_spec. apply SFsub_diag.
Qed.

Lemma interval_decoded_degenerate (min max lo : float) :
  SFdegenerate (Prim2SF (fst (normalizeInterval min max lo lo)))
  /\ SFdegenerate (Prim2SF (snd (normalizeInterval min max lo lo))).
Proof.
  pose proof (normalize_decoded_degenerate min lo) as Hmin.
  pose proof (normalize_decoded_degenerate max lo) as Hmax.
  split; [exact Hmin|].
  change (snd (normalizeInterval min max lo lo))
    with (PrimFloat.sub (normalize max lo lo) (normalize min lo lo)).
  rewrite FloatAxioms.sub_spec. apply SFsub_degenerate; assumption.
Qed.

(** C6.  [normalize], [normalizeInterval] and [topK] are functions of
    all doubles, [NaN] and the infinities among them, with a number (a
    list of items) for result and no other outcome.  When [lo] and [hi]
    are the same double, whatever it is, [normalize value lo hi] is
    [±Infinity] or [NaN], and so are the start and the width of
    [normalizeInterval]; [topK] returns [min k n] of the [n] entries
    whatever their scores. *)
Theorem degenerate_inputs_total (value min max lo : float)
    (s : @scores float) (k : nat) :
  degenerate (normalize value lo lo) = true
  /\ degenerate (fst (normalizeInterval min max lo lo)) = true
  /\ degenerate (snd (normalizeInterval min max lo lo)) = true
  /\ length (topK s k) = Nat.min k (length s)
  /\ normalize (float_lit 70) (float_lit 50) (float_lit 50) = infinity
  /\ normalize (float_lit 30) (float_lit 50) (float_lit 50) = neg_infinity
  /\ normalize (float_lit 50) (float_lit 50) (float_lit 50) = nan
  /\ List.map fst (topK [("a", nan); ("b", float_lit 1); ("c", nan)] 2)
     = ["A"; "B"].
Proof.
  split; [apply degenerate_decoded, normalize_decoded_degenerate|].
  split; [apply degenerate_decoded, interval_decoded_degenerate|].
  split; [apply degenerate_decoded, interval_decoded_degenerate|].
  split; [apply topK_length|].
  repeat split; reflexivity.
Qed.

(** ** The optimal range in the two charts *)

(** C7 on the code.  The range chart gives its dataset the widths as
    [data] and the starts as [base].  The comparison chart gives the
    dataset of the optimal range the widths as [data] and no [base]: the
    start it computed in [normalizedOptimalMin] (20 for a humidity of
    [[20, 40]]) is in neither dataset. *)
Theorem comparison_chart_has_no_offset {num} `{Number num}
    (userValues : ByParam.t num) (c : conditions num) :
  List.map ds_base (datasets (rangeChartData c))
    = [Some (List.map startPosition (rangeData c))]
  /\ List.map ds_data (datasets (rangeChartData c))
     = [List.map rangeWidth (rangeData c)]
  /\ List.map ds_base (datasets (parameterChartData userValues c))
     = [None; None]
  /\ List.map ds_data (datasets (parameterChartData userValues c))
     = [ByParam.toList (normalizedUserValues userValues);
        ByParam.toList (optimalRangeWidth c)]
  /\ (fst (comparisonOptimal sampleConditions (@ByParam.humidity)) == 20
      /\ snd (comparisonOptimal sampleConditions (@ByParam.humidity)) == 20)
  /\ ~ (exists d, In d (datasets (parameterChartData userValues c))
                  /\ ds_base d <> None).
Proof.
  repeat split; try reflexivity.
  intros [d [[<-|[<-|[]]] Hd]]; apply Hd; reflexivity.
Qed.

(** ** The normalizer on doubles and in exact arithmetic *)


















(** * More properties of the page *)

(** ** Filtering the encyclopedia *)

Lemma append_cons (c : ascii) (a b : string) :
  String c a ++ b = String c (a ++ b).
Proof. reflexivity. Qed.

Lemma append_empty (b : string) : EmptyString ++ b = b.
Proof. reflexivity. Qed.

Lemma prefix_append (t s : string) :
  String.prefix t s = true <-> exists b, s = t ++ b.
Proof.
  revert s. induction t as [|c t IH]; intros s; simpl.
  - destruct s; split; eauto.
  - destruct s as [|d s]; simpl.
    + split; [discriminate | intros [b Hb]; discriminate].
    + setoid_rewrite append_cons.
      destruct (Ascii.ascii_dec c d) as [->|Hne].
      * rewrite IH. split; intros [b Hb]; exists b; congruence.
      * split; [discriminate | intros [b Hb]; congruence].
Qed.

Lemma includes_occurs (s t : string) :
  includes s t = true <-> exists a b, s = a ++ t ++ b.
Proof.
  induction s as [|c s IH]; cbn [includes].
  - rewrite orb_false_r, prefix_append. split.
    + intros [b Hb]. exists EmptyString, b. exact Hb.
    + intros [[|d a] [b Hb]]; [exists b; exact Hb | discriminate].
  - rewrite orb_true_iff, IH, prefix_append. split.
    + intros [[b Hb]|[a [b Hab]]].
      * exists EmptyString, b. exact Hb.
      * exists (String c a), b. rewrite append_cons. congruence.
    + intros [[|d a] [b Hab]].
      * left. exists b. exact Hab.
      * right. exists a, b. rewrite append_cons in Hab. congruence.
Qed.

Lemma toLowerCaseString_append (v w : string) :
  toLowerCaseString (v ++ w) = toLowerCaseString v ++ toLowerCaseString w.
Proof.
  induction v as [|c v IH]; [reflexivity|].
  rewrite append_cons. simpl. rewrite IH. reflexivity.
Qed.

Lemma toLowerCaseString_length (s : string) :
  String.length (toLowerCaseString s) = String.length s.
Proof.
  induction s as [|c s IH]; simpl; congruence.
Qed.

Lemma append_length (a b : string) :
  String.length (a ++ b) = (String.length a + String.length b)%nat.
Proof.
  induction a as [|c a IH]; [reflexivity|].
  rewrite append_cons. simpl. rewrite IH. reflexivity.
Qed.

Lemma append_empty_r (a : string) : a ++ EmptyString = a.
Proof.
  induction a as [|c a IH]; [reflexivity|].
  rewrite append_cons, IH. reflexivity.
Qed.

Lemma append_assoc (a b c : string) : (a ++ b) ++ c = a ++ b ++ c.
Proof.
  induction a as [|d a IH]; [reflexivity|].
  rewrite !append_cons, IH. reflexivity.
Qed.

Lemma length_zero_empty (a : string) : String.length a = 0%nat -> a = EmptyString.
Proof.
  destruct a; [reflexivity | discriminate].
Qed.

(** X1.  With an empty filter text [filterCrops] shows every card. *)
Theorem filterCrops_empty_shows_all (cropCards : list string) :
  filterCrops "" cropCards = List.map (fun _ => DisplayBlock) cropCards.
Proof.
  unfold filterCrops. apply List.map_ext. intros cropName.
  assert (cardMatches "" cropName = true) as ->; [|reflexivity].
  unfold cardMatches. apply includes_occurs.
  exists EmptyString, cropName. reflexivity.
Qed.

(** X2.  On ASCII text, typing more, after or before what is typed,
    never shows a card that was hidden: the cards shown for a longer
    filter text are among those shown for each piece of it. *)
Theorem filterCrops_longer_text_hides (v w : string)
    (cropCards : list string) :
  isASCII v = true -> isASCII w = true ->
  Forall (fun cropName => isASCII cropName = true) cropCards ->
  Forall2 (fun shorter longer =>
             longer = DisplayBlock -> shorter = DisplayBlock)
    (filterCrops v cropCards) (filterCrops (v ++ w) cropCards)
  /\ Forall2 (fun shorter longer =>
                longer = DisplayBlock -> shorter = DisplayBlock)
       (filterCrops w cropCards) (filterCrops (v ++ w) cropCards).
Proof.
  intros _ _ _.
  assert (forall cropName,
            cardMatches (v ++ w) cropName = true ->
            cardMatches v cropName = true /\ cardMatches w cropName = true)
    as Hpiece.
  { intros cropName. unfold cardMatches.
    rewrite toLowerCaseString_append, !includes_occurs.
    intros [a [b Hab]]. split.
    - exists a, (toLowerCaseString w ++ b).
      rewrite Hab, append_assoc. reflexivity.
    - exists (a ++ toLowerCaseString v), b.
      rewrite Hab, !append_assoc. reflexivity. }
  unfold filterCrops.
  split; induction cropCards as [|cropName cards IH]; simpl;
    constructor; try exact IH;
    destruct (cardMatches (v ++ w) cropName) eqn:Hlong;
    try discriminate; intros _;
    destruct (Hpiece cropName Hlong) as [Hv Hw];
    rewrite ?Hv, ?Hw; reflexivity.
Qed.

Lemma filterCrops_longer_text_hides_witness :
  Forall2 (fun shorter longer =>
             longer = DisplayBlock -> shorter = DisplayBlock)
    (filterCrops "Ri" ["rice"; "maize"; "apricot"])
    (filterCrops "Ric" ["rice"; "maize"; "apricot"]).
Proof.
  refine (proj1 (filterCrops_longer_text_hides "Ri" "c"
                   ["rice"; "maize"; "apricot"] _ _ _)).
  - reflexivity.
  - reflexivity.
  - repeat constructor.
Defined.

(** X3.  Only the filter text is put in lower case, not the name of the
    card: typing the exact name of a crop, an ASCII text, shows its card
    if and only if the name has no upper-case letter. *)
Theorem cardMatches_own_name (cropName : string) :
  isASCII cropName = true ->
  cardMatches cropName cropName = true
  <-> toLowerCaseString cropName = cropName.
Proof.
  intros _. unfold cardMatches. rewrite includes_occurs. split.
  - intros [a [b Hab]].
    pose proof (f_equal String.length Hab) as Hlen.
    rewrite !append_length, toLowerCaseString_length in Hlen.
    assert (a = EmptyString) as -> by (apply length_zero_empty; lia).
    assert (b = EmptyString) as -> by (apply length_zero_empty; lia).
    rewrite append_empty, append_empty_r in Hab. congruence.
  - intros Hlow. exists EmptyString, EmptyString.
    rewrite Hlow, append_empty, append_empty_r. reflexivity.
Qed.

Lemma cardMatches_own_name_witness :
  cardMatches "rice" "rice" = true /\ cardMatches "Rice" "Rice" <> true.
Proof.
  split.
  - apply (cardMatches_own_name "rice"); reflexivity.
  - intros Hshown.
    apply (cardMatches_own_name "Rice") in Hshown; [discriminate|reflexivity].
Defined.

(** ** The cards of the encyclopedia *)

Lemma cropImages_NoDup : NoDup cropImages.
Proof.
  apply (bool_decide_unpack _). vm_compute. exact I.
Qed.

Lemma substring_prefix (n : nat) (s : string) :
  exists rest, s = String.substring 0 n s ++ rest
               /\ String.length (String.substring 0 n s)
                  = Nat.min n (String.length s).
Proof.
  revert s. induction n as [|n IH]; intros s.
  - exists s. destruct s; split; reflexivity.
  - destruct s as [|c s]; [exists EmptyString; split; reflexivity|].
    destruct (IH s) as [rest [Hrest Hlen]].
    exists rest. simpl. rewrite append_cons, <- Hrest, Hlen.
    split; reflexivity.
Qed.

(** X4.  Every card has an image: the index into [cropImages] is never
    out of range.  The images repeat every six cards, and two cards have
    the same image only if their positions differ by a multiple of
    six. *)
Theorem imageUrl_cycles (index other : nat) :
  (exists url, imageUrl index = Some url /\ In url cropImages)
  /\ imageUrl (index + 6) = imageUrl index
  /\ (imageUrl index = imageUrl other <-> index mod 6 = other mod 6).
Proof.
  unfold imageUrl. change (length cropImages) with 6%nat.
  pose proof (Nat.mod_upper_bound index 6 ltac:(lia)) as Hi.
  pose proof (Nat.mod_upper_bound other 6 ltac:(lia)) as Ho.
  split; [|split].
  - destruct (nth_error cropImages (index mod 6)) as [url|] eqn:Hn.
    + exists url. split; [reflexivity|]. exact (nth_error_In _ _ Hn).
    + apply nth_error_None in Hn. simpl in Hn. lia.
  - replace ((index + 6) mod 6)%nat with (index mod 6)%nat; [reflexivity|].
    rewrite <- (Nat.Div0.add_mod_idemp_r index 6 6).
    rewrite Nat.Div0.mod_same, Nat.add_0_r. reflexivity.
  - split; [|intros ->; reflexivity].
    intros Heq.
    apply (proj1 (NoDup_nth_error cropImages)
             (proj1 (NoDup_ListNoDup _) cropImages_NoDup));
      [simpl; lia | exact Heq].
Qed.

(** X5.  For an ASCII description, the string the template of a card
    receives is the first hundred characters of the description followed
    by three dots, also when nothing was cut: it is the whole
    description and the dots when the description has at most a hundred
    characters, and never more than 103 characters. *)
Theorem cardText_ellipsis (description : string) :
  isASCII description = true ->
  (exists shown rest,
     description = shown ++ rest
     /\ cardText description = shown ++ "..."
     /\ String.length shown = Nat.min 100 (String.length description))
  /\ (String.length (cardText description) <= 103)%nat
  /\ ((String.length description <= 100)%nat ->
      cardText description = description ++ "...").
Proof.
  intros _.
  destruct (substring_prefix 100 description) as [rest [Hrest Hlen]].
  unfold cardText.
  split; [|split].
  - exists (String.substring 0 100 description), rest. auto.
  - rewrite append_length, Hlen.
    change (String.length "...") with 3%nat. lia.
  - intros Hshort.
    assert (rest = EmptyString) as ->.
    { apply length_zero_empty.
      pose proof (f_equal String.length Hrest) as Hl.
      rewrite append_length, Hlen in Hl. lia. }
    rewrite append_empty_r in Hrest. rewrite <- Hrest. reflexivity.
Qed.

Lemma cardText_ellipsis_witness : cardText "Rice" = "Rice...".
Proof.
  refine (proj2 (proj2 (cardText_ellipsis "Rice" _)) _).
  - reflexivity.
  - simpl. lia.
Defined.

(** ** Capitalizing labels *)

Lemma capitalizeFrom_length (start : bool) (s : string) :
  String.length (capitalizeFrom start s) = String.length s.
Proof.
  revert start. induction s as [|c s IH]; intros start; simpl; [reflexivity|].
  rewrite IH. reflexivity.
Qed.

Lemma capitalizeFrom_get (s : string) (start : bool) (i : nat) :
  String.get i (capitalizeFrom start s)
  = option_map
      (fun c => if match i with O => start | S _ => startsWord i s end
                then toUpperCase c else c)
      (String.get i s).
Proof.
  revert start i. induction s as [|c s IH]; intros start i.
  - destruct i; reflexivity.
  - destruct i as [|i]; [reflexivity|].
    cbn [capitalizeFrom String.get]. rewrite IH.
    destruct i as [|i]; reflexivity.
Qed.

(** X6.  [capitalizeFirstLetter] keeps the length of an ASCII label
    and changes it only where a word starts: the character at a position
    that is the first or follows a space is put in upper case, every
    other character is kept. *)
Theorem capitalizeFirstLetter_positions (s : string) (i : nat) :
  isASCII s = true ->
  String.length (capitalizeFirstLetter s) = String.length s
  /\ String.get i (capitalizeFirstLetter s)
     = option_map (fun c => if startsWord i s then toUpperCase c else c)
         (String.get i s).
Proof.
  intros _. unfold capitalizeFirstLetter.
  rewrite (proj1 (capitalize_by_character s)).
  split; [apply capitalizeFrom_length|].
  rewrite capitalizeFrom_get. destruct i; reflexivity.
Qed.

Lemma capitalizeFirstLetter_positions_witness :
  String.length (capitalizeFirstLetter "kidney beans") = 12%nat
  /\ String.get 7 (capitalizeFirstLetter "kidney beans") = Some "B"%char.
Proof.
  apply (capitalizeFirstLetter_positions "kidney beans" 7). reflexivity.
Defined.

Lemma split_space_words (s : string) :
  Forall (fun w => hasSpace w = false) (split_space s).
Proof.
  induction s as [|c s IH]; simpl; [repeat constructor|].
  destruct (Ascii.eqb c " ") eqn:Hc; [constructor; [reflexivity | exact IH]|].
  destruct (split_space s) as [|w ws]; [repeat constructor; simpl; now rewrite Hc|].
  inversion IH as [|? ? Hw Hws]; subst.
  constructor; [simpl; rewrite Hc, Hw; reflexivity | exact Hws].
Qed.

Lemma capitalizeWord_hasSpace (w : string) :
  hasSpace (capitalizeWord w) = hasSpace w.
Proof.
  destruct w as [|c w]; [reflexivity|].
  simpl. rewrite toUpperCase_space. reflexivity.
Qed.

Lemma split_space_word (w : string) :
  hasSpace w = false -> split_space w = [w].
Proof.
  induction w as [|c w IH]; [reflexivity|].
  simpl. intros Hw. apply orb_false_iff in Hw. destruct Hw as [Hc Hw].
  rewrite Hc, (IH Hw). reflexivity.
Qed.

Lemma split_space_append (w rest : string) :
  hasSpace w = false ->
  split_space (w ++ String " " rest) = w :: split_space rest.
Proof.
  induction w as [|c w IH]; [reflexivity|].
  simpl hasSpace. intros Hw. apply orb_false_iff in Hw. destruct Hw as [Hc Hw].
  rewrite append_cons. cbn [split_space]. rewrite Hc, (IH Hw). reflexivity.
Qed.

Lemma split_join_space (ws : list string) :
  ws <> [] -> Forall (fun w => hasSpace w = false) ws ->
  split_space (join_space ws) = ws.
Proof.
  induction ws as [|w ws IH]; [congruence|].
  intros _ Hall. inversion Hall as [|? ? Hw Hws]; subst.
  destruct ws as [|w' ws].
  - apply split_space_word, Hw.
  - change (join_space (w :: w' :: ws))
      with (w ++ String " " (join_space (w' :: ws))).
    rewrite (split_space_append _ _ Hw).
    rewrite IH; [reflexivity | discriminate | exact Hws].
Qed.

Lemma join_split_space (s : string) : join_space (split_space s) = s.
Proof.
  induction s as [|c s IH]; [reflexivity|].
  pose proof (split_space_nonempty s) as Hne.
  simpl. destruct (Ascii.eqb c " ") eqn:Hc.
  - apply Ascii.eqb_eq in Hc. subst c.
    rewrite (join_space_empty_first _ Hne), IH. reflexivity.
  - destruct (split_space s) as [|w ws]; [congruence|].
    rewrite join_space_cons_char, IH. reflexivity.
Qed.

(** X7.  Splitting a label at its spaces and joining the pieces gives
    the label back; the words of a capitalized label are the words of
    the label, each with its first character in upper case; capitalizing
    a second time changes nothing. *)
Theorem capitalizeFirstLetter_words (s : string) :
  join_space (split_space s) = s
  /\ split_space (capitalizeFirstLetter s)
     = List.map capitalizeWord (split_space s)
  /\ capitalizeFirstLetter (capitalizeFirstLetter s)
     = capitalizeFirstLetter s.
Proof.
  split; [apply join_split_space|].
  split; [|apply capitalizeFirstLetter_idempotent].
  unfold capitalizeFirstLetter. apply split_join_space.
  - pose proof (split_space_nonempty s) as Hne.
    destruct (split_space s); [congruence | discriminate].
  - pose proof (split_space_words s) as Hall.
    induction Hall as [|w ws Hw Hws IH]; simpl; constructor; [|exact IH].
    rewrite capitalizeWord_hasSpace. exact Hw.
Qed.

(** ** The confidence chart *)

Lemma combine_crop_score {num} (l : list (string * num)) :
  List.combine (List.map fst l) (List.map snd l) = l.
Proof.
  induction l as [|[c sc] l IH]; simpl; [reflexivity|].
  rewrite IH. reflexivity.
Qed.

(** X8.  The confidence chart has one dataset, with one label per bar
    and each label beside its own score; it shows [min 5 n] of the [n]
    crops, never more bars than the five colours it defines. *)
Theorem confidenceChart_bars {num} `{Number num} (s : scores) :
  exists ds,
    datasets (confidenceChartData s) = [ds]
    /\ List.combine (labels (confidenceChartData s)) (ds_data ds)
       = topK s 5
    /\ length (labels (confidenceChartData s)) = Nat.min 5 (length s)
    /\ length (ds_data ds) = Nat.min 5 (length s)
    /\ (length (ds_data ds) <= length confidenceColors)%nat.
Proof.
  eexists. split; [reflexivity|]. simpl.
  unfold crop, score.
  rewrite combine_crop_score, !List.length_map, !topK_length.
  repeat split. apply Nat.le_min_l.
Qed.

Lemma topK_In_scores {num} `{Number num} (s : scores) (k : nat)
    (l : string) (sc : num) :
  In (l, sc) (topK s k) ->
  exists label, In (label, sc) s /\ l = capitalizeFirstLetter label.
Proof.
  intros Hin. apply firstn_In in Hin.
  apply (Permutation_in _ (array_sort_perm byScoreDescending _)) in Hin.
  rewrite combinedData_map in Hin. apply List.in_map_iff in Hin.
  destruct Hin as [[label sc'] [Heq Hin]]. simpl in Heq.
  injection Heq as Hl Hsc. subst. exists label. split; [exact Hin | reflexivity].
Qed.

(** X9.  A bar of the confidence chart is a crop of the scores, under
    its capitalized name and with its own score; when there are no more
    than [k] crops every crop has its bar. *)
Theorem topK_bars_are_crops {num} `{Number num} (s : scores) (k : nat)
    (label : string) (sc : num) :
  (In (label, sc) (topK s k) ->
   exists name, In (name, sc) s /\ label = capitalizeFirstLetter name)
  /\ ((length s <= k)%nat -> In (label, sc) s ->
      In (capitalizeFirstLetter label, sc) (topK s k)).
Proof.
  split; [apply topK_In_scores|].
  intros Hk Hin. unfold topK.
  rewrite List.firstn_all2
    by (rewrite array_sort_length, combinedData_map, List.length_map;
        exact Hk).
  apply (Permutation_in _
           (Permutation_sym (array_sort_perm byScoreDescending _))).
  rewrite combinedData_map. apply List.in_map_iff.
  exists (label, sc). split; [reflexivity | exact Hin].
Qed.

Lemma topK_bars_are_crops_witness :
  (exists name, In (name, 95) wheatRiceMaize
                /\ "Maize" = capitalizeFirstLetter name)
  /\ In (capitalizeFirstLetter "rice", 85) (topK wheatRiceMaize 5).
Proof.
  split.
  - apply (proj1 (topK_bars_are_crops wheatRiceMaize 2 "Maize" 95)).
    left. reflexivity.
  - apply (proj2 (topK_bars_are_crops wheatRiceMaize 5 "rice" 85)).
    + simpl. lia.
    + right. left. reflexivity.
Defined.

(** X10.  The bars of the confidence chart go down from left to right
    in score, and the first bar has the highest score of all the crops,
    shown or not. *)
Theorem confidenceChart_first_is_best (s : @scores Q) (label : string)
    (sc : Q) :
  In (label, sc) s ->
  StronglySorted (fun a b : Q => b <= a)
    (List.map score (topK s 5))
  /\ exists best rest,
       List.map score (topK s 5) = best :: rest /\ sc <= best.
Proof.
  intros Hin. split.
  - pose proof (topK_sorted s 5) as Hs.
    induction Hs as [|x l Hl IH Hx]; simpl; constructor; [exact IH|].
    rewrite List.Forall_forall in *. intros z Hz.
    apply List.in_map_iff in Hz. destruct Hz as [y [<- Hy]].
    exact (Hx y Hy).
  - assert (In (capitalizeFirstLetter label, sc)
              (array_sort byScoreDescending (combinedData s))) as Hsorted.
    { apply (Permutation_in _
               (Permutation_sym (array_sort_perm byScoreDescending _))).
      rewrite combinedData_map. apply List.in_map_iff.
      exists (label, sc). split; [reflexivity | exact Hin]. }
    pose proof (array_sort_sorted (combinedData s)) as Hs.
    unfold topK.
    destruct (array_sort byScoreDescending (combinedData s)) as [|top l];
      [contradiction|].
    exists (score top), (List.map score (firstn 4 l)).
    split; [reflexivity|].
    destruct Hsorted as [->|Hl]; [simpl; lra|].
    apply StronglySorted_inv in Hs. destruct Hs as [_ Htop].
    rewrite List.Forall_forall in Htop. exact (Htop _ Hl).
Qed.

Lemma confidenceChart_first_is_best_witness :
  exists best rest,
    List.map score (topK wheatRiceMaize 5) = best :: rest /\ 85 <= best.
Proof.
  apply (confidenceChart_first_is_best wheatRiceMaize "rice" 85).
  right. left. reflexivity.
Defined.

(** ** The bars of the range chart and of the comparison chart *)

Lemma normalize_bounds (value lo hi : Q) :
  lo < hi -> lo <= value -> value <= hi ->
  0 <= normalize value lo hi /\ normalize value lo hi <= 100.
Proof.
  intros Hlt Hlo Hhi.
  pose proof (scale_pos lo hi Hlt) as Hs.
  pose proof (normalize_difference value lo lo hi Hlt) as Hd0.
  pose proof (normalize_difference hi value lo hi Hlt) as Hd1.
  rewrite (normalize_at_lo lo hi Hlt) in Hd0.
  rewrite (normalize_at_hi lo hi Hlt) in Hd1.
  assert (0 <= (value - lo) * scale lo hi)
    by (apply Qmult_le_0_compat; lra).
  assert (0 <= (hi - value) * scale lo hi)
    by (apply Qmult_le_0_compat; lra).
  split; lra.
Qed.

Lemma rangeEntry_fits (q : parameter Q) :
  fst (param_totalRange q) < snd (param_totalRange q) ->
  withinTotalRange q ->
  fitsAxis (startPosition (rangeEntry q)) (rangeWidth (rangeEntry q)).
Proof.
  intros Hlt [Hlo [Hmid Hhi]].
  set (lo := fst (param_totalRange q)) in *.
  set (hi := snd (param_totalRange q)) in *.
  change (startPosition (rangeEntry q)) with (normalize (param_min q) lo hi).
  change (rangeWidth (rangeEntry q))
    with (normalize (param_max q) lo hi - normalize (param_min q) lo hi).
  pose proof (normalize_bounds (param_min q) lo hi Hlt Hlo ltac:(lra)) as [? ?].
  pose proof (normalize_bounds (param_max q) lo hi Hlt ltac:(lra) Hhi) as [? ?].
  pose proof (normalize_difference (param_max q) (param_min q) lo hi Hlt) as Hd.
  assert (0 <= (param_max q - param_min q) * scale lo hi).
  { apply Qmult_le_0_compat; [lra|]. apply Qlt_le_weak, scale_pos, Hlt. }
  unfold fitsAxis. repeat split; lra.
Qed.

Lemma parameters_totalRange (c : conditions Q) :
  Forall (fun q : parameter Q =>
            fst (param_totalRange q) < snd (param_totalRange q))
    (parameters c).
Proof.
  unfold parameters. repeat constructor.
Qed.

(** X11.  When every optimal interval of the conditions lies in the
    total range of its parameter, every bar of the range chart fits the
    axis from 0 to 100: it starts at 0 or above, has a width of 0 or
    more, and ends at 100 or below. *)
Theorem rangeChart_bars_fit (c : conditions Q) :
  Forall withinTotalRange (parameters c) ->
  Forall (fun d => fitsAxis (startPosition d) (rangeWidth d)) (rangeData c).
Proof.
  intros Hin. unfold rangeData.
  pose proof (parameters_totalRange c) as Hranges.
  induction Hin as [|q l Hq Hl IH]; simpl; [constructor|].
  inversion Hranges as [|? ? Hlt Hrest]; subst.
  constructor; [apply rangeEntry_fits; assumption | apply IH, Hrest].
Qed.

Lemma rangeChart_bars_fit_witness :
  Forall (fun d => fitsAxis (startPosition d) (rangeWidth d))
    (rangeData sampleConditions).
Proof.
  apply (rangeChart_bars_fit sampleConditions).
  repeat constructor; discriminate.
Defined.

Lemma normalize_le_iff (v w lo hi : Q) :
  lo < hi -> (v <= w <-> normalize v lo hi <= normalize w lo hi).
Proof.
  intros Hlt. split; intros Hle.
  - destruct (Qlt_le_dec v w) as [Hvw|Hwv].
    + apply Qlt_le_weak, normalize_lt; assumption.
    + assert (v == w) as Heq by lra.
      pose proof (normalize_difference v w lo hi Hlt) as Hd.
      pose proof (scale_pos lo hi Hlt) as Hs.
      assert (0 <= (w - v) * scale lo hi) as Hz
        by (apply Qmult_le_0_compat; lra).
      assert ((w - v) * scale lo hi == - ((v - w) * scale lo hi)) as Hopp
        by ring.
      lra.
  - destruct (Qlt_le_dec w v) as [Hwv|Hvw]; [|exact Hvw].
    pose proof (normalize_lt w v lo hi Hlt Hwv). lra.
Qed.

(** X12.  In exact arithmetic, the start and the width that
    [createRangeChart] computes for a parameter bound the positions of
    the optimal values and no others: with a total range [lo < hi], a
    value lies in the optimal interval if and only if its position,
    [normalize value lo hi], lies between the start and the start plus
    the width.  This is a statement of the two numbers, not of what
    Chart.js draws from [base] and [data]. *)
Theorem rangeEntry_covers (q : parameter Q) (value : Q) :
  fst (param_totalRange q) < snd (param_totalRange q) ->
  (param_min q <= value /\ value <= param_max q)
  <-> (startPosition (rangeEntry q)
         <= normalize value (fst (param_totalRange q))
              (snd (param_totalRange q))
       /\ normalize value (fst (param_totalRange q))
            (snd (param_totalRange q))
          <= startPosition (rangeEntry q) + rangeWidth (rangeEntry q)).
Proof.
  intros Hlt.
  set (lo := fst (param_totalRange q)) in *.
  set (hi := snd (param_totalRange q)) in *.
  change (startPosition (rangeEntry q)) with (normalize (param_min q) lo hi).
  change (rangeWidth (rangeEntry q))
    with (normalize (param_max q) lo hi - normalize (param_min q) lo hi).
  rewrite (normalize_le_iff (param_min q) value lo hi Hlt).
  rewrite (normalize_le_iff value (param_max q) lo hi Hlt).
  split; intros [H1 H2]; split; lra.
Qed.

Lemma rangeEntry_covers_witness :
  startPosition (rangeEntry (num := Q)
     {| param_name := "Humidity"; param_min := 20; param_max := 40;
        param_unit := "%"; param_totalRange := (0, 100) |})
  <= normalize 30 0 100.
Proof.
  refine (proj1 (proj1 (rangeEntry_covers
     {| param_name := "Humidity"; param_min := 20; param_max := 40;
        param_unit := "%"; param_totalRange := (0, 100) |} 30 _) _)).
  - reflexivity.
  - split; discriminate.
Defined.

(** X13.  The two charts agree on the optimal ranges: for the same
    conditions the comparison chart lists the parameters of the range
    chart in the same order, and the widths of its optimal-range dataset
    are the widths of the bars of the range chart. *)
Theorem charts_same_widths {num} `{Number num} (userValues : ByParam.t num)
    (c : conditions num) :
  labels (parameterChartData userValues c) = labels (rangeChartData c)
  /\ exists yourSoil optimal range,
       datasets (parameterChartData userValues c) = [yourSoil; optimal]
       /\ datasets (rangeChartData c) = [range]
       /\ ds_data optimal = ds_data range
       /\ length (ds_data yourSoil) = length (labels (rangeChartData c)).
Proof.
  split; [reflexivity|].
  do 3 eexists. repeat split; reflexivity.
Qed.

(** X14.  When the values of the form lie in the total ranges, every
    bar of the user's dataset in the comparison chart is between 0 and
    100, the ends of the axis. *)
Theorem userBars_fit (userValues : ByParam.t Q) :
  userWithinRanges userValues ->
  Forall (fun x => 0 <= x /\ x <= 100)
    (ByParam.toList (normalizedUserValues userValues)).
Proof.
  unfold userWithinRanges, ByParam.toList. cbn [ranges ByParam.n ByParam.p
    ByParam.k ByParam.temp ByParam.humidity ByParam.ph ByParam.rainfall].
  intros Hin.
  repeat match goal with
         | H : Forall2 _ (_ :: _) (_ :: _) |- _ =>
             apply List.Forall2_cons_iff in H; destruct H as [[? ?] H]
         end.
  unfold normalizedUserValues. cbn [ranges ByParam.n ByParam.p ByParam.k
    ByParam.temp ByParam.humidity ByParam.ph ByParam.rainfall fst snd].
  repeat constructor;
    apply normalize_bounds; try assumption; reflexivity.
Qed.

Lemma userBars_fit_witness :
  Forall (fun x => 0 <= x /\ x <= 100)
    (ByParam.toList
       (normalizedUserValues (ByParam.mk 70 40 50 25 60 7 150))).
Proof.
  apply (userBars_fit (ByParam.mk 70 40 50 25 60 7 150)).
  repeat constructor; discriminate.
Defined.

(** ** Missing numbers *)

Lemma SFeqb_refl_not_nan (x : spec_float) :
  SFeqb x x = false -> x = S754_nan.
Proof.
  destruct x as [s|s| |s m e]; unfold SFeqb; simpl; try discriminate.
  - destruct s; discriminate.
  - reflexivity.
  - destruct s; rewrite Z.compare_refl, Pos.compare_cont_refl;
      discriminate.
Qed.

Lemma is_nan_decoded (x : float) :
  PrimFloat.is_nan x = true <-> Prim2SF x = S754_nan.
Proof.
  unfold PrimFloat.is_nan. rewrite FloatAxioms.eqb_spec. split.
  - intros Hx. apply SFeqb_refl_not_nan.
    destruct (SFeqb (Prim2SF x) (Prim2SF x)); [discriminate | reflexivity].
  - intros ->. reflexivity.
Qed.

Lemma SFsub_nan (x y : spec_float) :
  x = S754_nan \/ y = S754_nan -> SF64sub x y = S754_nan.
Proof.
  intros [->| ->]; [reflexivity|]. destruct x; reflexivity.
Qed.

Lemma SFdiv_nan (x y : spec_float) :
  x = S754_nan \/ y = S754_nan -> SF64div x y = S754_nan.
Proof.
  intros [->| ->]; [reflexivity|]. destruct x; reflexivity.
Qed.

Lemma SFmul_nan (x y : spec_float) :
  x = S754_nan \/ y = S754_nan -> SF64mul x y = S754_nan.
Proof.
  intros [->| ->]; [reflexivity|]. destruct x; reflexivity.
Qed.

Lemma normalize_nan (value lo hi : float) :
  PrimFloat.is_nan value = true \/ PrimFloat.is_nan lo = true
  \/ PrimFloat.is_nan hi = true ->
  PrimFloat.is_nan (normalize value lo hi) = true.
Proof.
  rewrite !is_nan_decoded. intros Hnan.
  unfold normalize; simpl.
  rewrite FloatAxioms.mul_spec. apply SFmul_nan. left.
  rewrite FloatAxioms.div_spec. apply SFdiv_nan.
  rewrite !FloatAxioms.sub_spec.
  destruct Hnan as [Hv|[Hl|Hh]].
  - left. apply SFsub_nan. left. exact Hv.
  - left. apply SFsub_nan. right. exact Hl.
  - right. apply SFsub_nan. left. exact Hh.
Qed.

(** X15.  A number that is missing reaches the chart as [NaN] and
    raises nothing: in doubles, [normalize] is [NaN] as soon as the
    value or an end of the range is [NaN]; an optimal interval whose
    minimum is [NaN] has a [NaN] start and a [NaN] width, and one whose
    maximum is [NaN] has a [NaN] width. *)
Theorem missing_number_is_NaN (value min max lo hi : float) :
  (PrimFloat.is_nan value = true \/ PrimFloat.is_nan lo = true
   \/ PrimFloat.is_nan hi = true ->
   PrimFloat.is_nan (normalize value lo hi) = true)
  /\ (PrimFloat.is_nan min = true ->
      PrimFloat.is_nan (fst (normalizeInterval min max lo hi)) = true
      /\ PrimFloat.is_nan (snd (normalizeInterval min max lo hi)) = true)
  /\ (PrimFloat.is_nan max = true ->
      PrimFloat.is_nan (snd (normalizeInterval min max lo hi)) = true).
Proof.
  split; [apply normalize_nan|].
  change (fst (normalizeInterval min max lo hi)) with (normalize min lo hi).
  change (snd (normalizeInterval min max lo hi))
    with (PrimFloat.sub (normalize max lo hi) (normalize min lo hi)).
  split.
  - intros Hmin.
    assert (PrimFloat.is_nan (normalize min lo hi) = true) as Hstart
      by (apply normalize_nan; left; exact Hmin).
    split; [exact Hstart|].
    apply is_nan_decoded. rewrite FloatAxioms.sub_spec.
    apply SFsub_nan. right. apply is_nan_decoded, Hstart.
  - intros Hmax.
    apply is_nan_decoded. rewrite FloatAxioms.sub_spec.
    apply SFsub_nan. left. apply is_nan_decoded, normalize_nan.
    left. exact Hmax.
Qed.

Lemma missing_number_is_NaN_witness :
  PrimFloat.is_nan (normalize nan (float_lit 0) (float_lit 140)) = true
  /\ PrimFloat.is_nan
       (snd (normalizeInterval (float_lit 20) nan
               (float_lit 0) (float_lit 100))) = true.
Proof.
  split.
  - refine (proj1 (missing_number_is_NaN nan nan nan
                     (float_lit 0) (float_lit 140)) _).
    left. reflexivity.
  - refine (proj2 (proj2 (missing_number_is_NaN nan (float_lit 20) nan
                            (float_lit 0) (float_lit 100))) _).
    reflexivity.
Defined.

(** ** The charts of the page over a session *)

Section PageSession.

#[local] Open Scope nat_scope.

Lemma run_app (es es' : list redraw) (st : page) :
  run (es ++ es') st = run es' (run es st).
Proof.
  revert st. induction es as [|e es IH]; intros st; [reflexivity|].
  simpl. apply IH.
Qed.

Lemma run_created (es : list redraw) (st : page) :
  created (run es st) = created st + length es.
Proof.
  revert st. induction es as [|e es IH]; intros st; simpl; [lia|].
  rewrite IH, step_created. lia.
Qed.

Lemma step_other_canvas (e : redraw) (cv : canvas) (st : page) :
  page_ok st -> cv <> canvasOf e ->
  chartOf cv (step e st) = chartOf cv st
  /\ liveOn cv (step e st) = liveOn cv st.
Proof.
  intros [[Hheld Hold] Hkept] Hcv. split.
  - rewrite chartOf_step, decide_False by exact Hcv. reflexivity.
  - apply set_eq. intros h.
    rewrite !elem_of_liveOn, step_instances, lookup_insert_Some,
      release_instances.
    split.
    + intros [[_ Heq]|[_ Hl]]; [congruence|].
      destruct (chartOf (canvasOf e) st); [|exact Hl].
      apply lookup_delete_Some in Hl. tauto.
    + intros Hl. right. pose proof (Hold h cv Hl). split; [lia|].
      destruct (chartOf (canvasOf e) st) as [h0|] eqn:Hg; [|exact Hl].
      apply lookup_delete_Some. split; [|exact Hl].
      intros ->. apply Hkept in Hg. congruence.
Qed.

Lemma run_keeps_chart (es : list redraw) (cv : canvas) (st : page) :
  page_ok st -> Forall (fun e => canvasOf e <> cv) es ->
  chartOf cv (run es st) = chartOf cv st.
Proof.
  revert st. induction es as [|e es IH]; intros st Hok Hes; [reflexivity|].
  inversion Hes as [|? ? He Hes']; subst. simpl.
  rewrite (IH _ (step_ok e st Hok) Hes').
  apply step_other_canvas; [exact Hok | congruence].
Qed.

Lemma live_union (st : page) :
  dom (instances st)
  = liveOn ConfidenceCanvas st ∪ liveOn ParameterCanvas st
    ∪ liveOn RangeCanvas st.
Proof.
  apply set_eq. intros h.
  rewrite !elem_of_union, !elem_of_liveOn, elem_of_dom. split.
  - intros [[] Hl]; tauto.
  - intros [[Hl|Hl]|Hl]; eexists; exact Hl.
Qed.

Lemma size_union_le (X Y : gset nat) : size (X ∪ Y) <= size X + size Y.
Proof.
  rewrite size_union_alt.
  assert (Y ∖ X ⊆ Y) as Hsub
    by (intros x Hx; apply elem_of_difference in Hx; tauto).
  apply subseteq_size in Hsub. lia.
Qed.

End PageSession.

(** X16.  Redrawing a chart leaves the charts of the other canvases as
    they are: the global of another canvas holds the same chart after
    the redraw, and the same chart is alive on it. *)
Theorem redraw_keeps_other_charts (es : list redraw) (e : redraw)
    (cv : canvas) :
  cv <> canvasOf e ->
  let st := run es initialPage in
  chartOf cv (step e st) = chartOf cv st
  /\ liveOn cv (step e st) = liveOn cv st.
Proof.
  intros Hcv st. apply step_other_canvas; [|exact Hcv].
  apply run_ok, initialPage_ok.
Qed.

Lemma redraw_keeps_other_charts_witness :
  liveOn ConfidenceCanvas
    (step RedrawRange (run [RedrawConfidence] initialPage))
  = liveOn ConfidenceCanvas (run [RedrawConfidence] initialPage).
Proof.
  apply (redraw_keeps_other_charts [RedrawConfidence] RedrawRange
           ConfidenceCanvas).
  discriminate.
Defined.

(** X17.  Charts do not pile up: however many redraws a session makes,
    at most three charts are alive, one per canvas at most, and a canvas
    has a live chart exactly when it has been drawn on. *)
Theorem session_keeps_three_charts (es : list redraw) (cv : canvas) :
  let st := run es initialPage in
  (size (instances st) <= 3)%nat
  /\ (size (liveOn cv st) = 1%nat <-> In cv (List.map canvasOf es))
  /\ (liveOn cv st = ∅ <-> ~ In cv (List.map canvasOf es)).
Proof.
  intros st.
  pose proof (run_ok es initialPage initialPage_ok) as Hok. fold st in Hok.
  assert (chartOf cv st <> None <-> In cv (List.map canvasOf es)) as Hdrawn.
  { subst st. clear Hok.
    induction es as [|e es IH] using rev_ind.
    - destruct cv; simpl; tauto.
    - rewrite run_app, List.map_app, List.in_app_iff. simpl.
      rewrite chartOf_step. case_decide as Hcv.
      + split; [intros _; right; left; congruence | discriminate].
      + rewrite IH. split; [tauto|]. intros [H|[H|[]]]; [exact H | congruence]. }
  assert (liveOn cv st
          = match chartOf cv st with Some h => {[h]} | None => ∅ end)
    as Hlive.
  { destruct Hok as [[Hheld _] Hkept]. apply set_eq. intros h.
    rewrite elem_of_liveOn. split.
    - intros Hl. rewrite (Hheld h cv Hl). set_solver.
    - destruct (chartOf cv st) as [h0|] eqn:Hg; [|set_solver].
      rewrite elem_of_singleton. intros ->. apply Hkept, Hg. }
  split; [|split].
  - rewrite <- size_dom, live_union.
    destruct Hok as [Hlive' _].
    pose proof (liveOn_at_most_one ConfidenceCanvas st Hlive').
    pose proof (liveOn_at_most_one ParameterCanvas st Hlive').
    pose proof (liveOn_at_most_one RangeCanvas st Hlive').
    pose proof (size_union_le
                  (liveOn ConfidenceCanvas st ∪ liveOn ParameterCanvas st)
                  (liveOn RangeCanvas st)).
    pose proof (size_union_le (liveOn ConfidenceCanvas st)
                  (liveOn ParameterCanvas st)).
    lia.
  - rewrite <- Hdrawn, Hlive.
    destruct (chartOf cv st) as [h|].
    + rewrite size_singleton. split; [discriminate | reflexivity].
    + rewrite size_empty. split; [discriminate | congruence].
  - rewrite <- Hdrawn, Hlive.
    destruct (chartOf cv st) as [h|].
    + split; [|intros Hn; exfalso; apply Hn; discriminate].
      intros Hempty. exfalso.
      assert (h ∈ (∅ : gset nat)) as Hin by (rewrite <- Hempty; set_solver).
      set_solver.
    + split; [intros _ Hn; apply Hn; reflexivity | reflexivity].
Qed.

(** X18.  The chart alive on a canvas is the one its most recent redraw
    created: charts are numbered in the order of the redraws, and after
    a redraw of a canvas and any later redraws of the other canvases its
    global holds the chart of that redraw, which is the only one alive
    on it. *)
Theorem latest_redraw_is_live (before after : list redraw) (e : redraw) :
  Forall (fun e' => canvasOf e' <> canvasOf e) after ->
  let st := run (before ++ e :: after) initialPage in
  created st = length (before ++ e :: after)
  /\ chartOf (canvasOf e) st = Some (length before)
  /\ liveOn (canvasOf e) st = {[length before]}.
Proof.
  intros Hafter st.
  pose proof (run_ok before initialPage initialPage_ok) as Hbefore.
  assert (chartOf (canvasOf e) st = Some (length before)) as Hheld.
  { subst st. rewrite run_app. simpl.
    rewrite (run_keeps_chart after (canvasOf e) _ (step_ok e _ Hbefore) Hafter).
    rewrite chartOf_step, decide_True by reflexivity.
    rewrite run_created. reflexivity. }
  split; [subst st; rewrite run_created; reflexivity|].
  split; [exact Hheld|].
  pose proof (run_ok (before ++ e :: after) initialPage initialPage_ok)
    as [[Hlive _] Hkept].
  fold st in Hlive, Hkept.
  apply set_eq. intros h. rewrite elem_of_liveOn, elem_of_singleton. split.
  - intros Hl. apply Hlive in Hl. congruence.
  - intros ->. apply Hkept, Hheld.
Qed.

Lemma latest_redraw_is_live_witness :
  liveOn ConfidenceCanvas
    (run [RedrawConfidence; RedrawConfidence; RedrawRange] initialPage)
  = {[1%nat]}.
Proof.
  apply (latest_redraw_is_live [RedrawConfidence] [RedrawRange]
           RedrawConfidence).
  repeat constructor. discriminate.
Defined.

(** ** The list of crops *)

Section SortConsistent.
Context {A : Type} (compareFn : A -> A -> Q) (before : A -> A -> Prop).
Hypothesis before_trans :
  forall x y z, before x y -> before y z -> before x z.
Hypothesis not_gt0_before :
  forall x y, num_gt0 (compareFn x y) = false -> before x y.
Hypothesis gt0_before :
  forall x y, num_gt0 (compareFn x y) = true -> before y x.

Lemma sort_insert_sorted_by (x : A) (l : list A) :
  StronglySorted before l ->
  StronglySorted before (sort_insert compareFn x l).
Proof.
  induction l as [|y l IH]; intros Hs; cbn [sort_insert].
  - constructor; constructor.
  - apply StronglySorted_inv in Hs. destruct Hs as [Hl Hy].
    destruct (num_gt0 (compareFn x y)) eqn:Hc.
    + constructor; [apply IH; exact Hl|].
      apply (Permutation_Forall (Permutation_sym (sort_insert_perm _ x l))).
      constructor; [apply gt0_before; exact Hc | exact Hy].
    + constructor; [constructor; assumption|].
      constructor; [apply not_gt0_before; exact Hc|].
      rewrite List.Forall_forall in *. intros z Hz.
      apply (before_trans x y z); [apply not_gt0_before; exact Hc|].
      exact (Hy z Hz).
Qed.

Lemma array_sort_sorted_by (l : list A) :
  StronglySorted before (array_sort compareFn l).
Proof.
  induction l as [|x l IH]; cbn [array_sort]; [constructor|].
  apply sort_insert_sorted_by, IH.
Qed.

End SortConsistent.

Lemma string_compare_trans (a b c : string) :
  String.compare a b <> Gt -> String.compare b c <> Gt ->
  String.compare a c <> Gt.
Proof.
  revert b c. induction a as [|x a IH]; intros [|y b] [|z c]; simpl;
    try congruence.
  unfold Ascii.compare.
  destruct (N.compare_spec (N_of_ascii x) (N_of_ascii y)) as [Hxy|Hxy|Hxy];
    destruct (N.compare_spec (N_of_ascii y) (N_of_ascii z)) as [Hyz|Hyz|Hyz];
    try congruence; intros Hab Hbc.
  - rewrite Hxy, Hyz, N.compare_refl. exact (IH b c Hab Hbc).
  - rewrite Hxy. rewrite (proj2 (N.compare_lt_iff _ _) Hyz). discriminate.
  - rewrite <- Hyz. rewrite (proj2 (N.compare_lt_iff _ _) Hxy). discriminate.
  - rewrite (proj2 (N.compare_lt_iff _ _) (N.lt_trans _ _ _ Hxy Hyz)).
    discriminate.
Qed.

Lemma string_leb_compare (a b : string) :
  String.leb a b = true <-> String.compare a b <> Gt.
Proof.
  unfold String.leb. destruct (String.compare a b); split;
    congruence.
Qed.

Lemma defaultCompare_gt0 (x y : string) :
  num_gt0 (defaultCompare x y) = true <-> String.compare x y = Gt.
Proof.
  unfold defaultCompare. destruct (String.compare x y); simpl; split;
    congruence.
Qed.

Lemma sortStrings_sorted (l : list string) :
  StronglySorted (fun a b => String.leb a b = true)
    (array_sort defaultCompare l).
Proof.
  apply array_sort_sorted_by.
  - intros x y z. rewrite !string_leb_compare. apply string_compare_trans.
  - intros x y Hc. apply string_leb_compare. intros Hgt.
    apply defaultCompare_gt0 in Hgt. congruence.
  - intros x y Hc. apply defaultCompare_gt0 in Hc.
    apply string_leb_compare. rewrite String.compare_antisym, Hc.
    discriminate.
Qed.

(** X19.  For crops with ASCII names, the options of the list of crops
    are the crops of the answer, each once for each time it occurs, in
    the order of their names code unit by code unit; the value of an
    option is the name as the server gave it and its text the
    capitalized name. *)
Theorem loadCropOptions_sorted (crops : list string) :
  Forall (fun crop => isASCII crop = true) crops ->
  Permutation (List.map option_value (loadCropOptions crops)) crops
  /\ StronglySorted (fun a b => String.leb a b = true)
       (List.map option_value (loadCropOptions crops))
  /\ Forall (fun o => option_textContent o
                      = capitalizeFirstLetter (option_value o))
       (loadCropOptions crops).
Proof.
  intros _. unfold loadCropOptions.
  rewrite List.map_map. simpl. rewrite List.map_id.
  split; [apply array_sort_perm|].
  split; [apply sortStrings_sorted|].
  apply List.Forall_forall. intros o Ho.
  apply List.in_map_iff in Ho. destruct Ho as [crop [<- _]]. reflexivity.
Qed.

Lemma loadCropOptions_sorted_witness :
  StronglySorted (fun a b => String.leb a b = true)
    (List.map option_value (loadCropOptions ["rice"; "maize"; "wheat"])).
Proof.
  refine (proj1 (proj2 (loadCropOptions_sorted ["rice"; "maize"; "wheat"] _))).
  repeat constructor.
Defined.

(** ** Texts of the tooltips and of the table *)

(** X20.  For every bar of the comparison chart the tooltip finds its
    way through [paramMap], [unitMap] and [paramNameMap]: under the
    label of the bar number [index], the tooltip of the optimal-range
    dataset is the text the range chart shows for its bar number
    [index], and the tooltip of the user's dataset shows the value of
    the form the bar was computed from, with the unit of that
    parameter.  No [undefined] enters the text. *)
Theorem tooltips_agree {num} `{Number num} (numberToString : num -> string)
    (userValues : ByParam.t num) (c : conditions num)
    (index : nat) (label : string) :
  nth_error (labels (parameterChartData userValues c)) index = Some label ->
  rangeTooltip numberToString c index
    = Some (parameterTooltip numberToString userValues c label 1)
  /\ exists value q,
       nth_error (ByParam.toList userValues) index = Some value
       /\ nth_error (parameters c) index = Some q
       /\ parameterTooltip numberToString userValues c label 0
          = "Your value: " ++ numberToString value ++ " " ++ param_unit q.
Proof.
  intros Hlabel.
  do 7 (destruct index as [|index];
        [injection Hlabel as <-; split; [reflexivity|];
         do 2 eexists; repeat split; reflexivity|]).
  destruct index; discriminate.
Qed.

Lemma tooltips_agree_witness :
  rangeTooltip (fun _ : Q => "?") sampleConditions 4
  = Some (parameterTooltip (fun _ : Q => "?")
            (ByParam.mk 70 40 50 25 60 7 150) sampleConditions
            "Humidity" 1).
Proof.
  refine (proj1 (tooltips_agree (fun _ : Q => "?")
                   (ByParam.mk 70 40 50 25 60 7 150) sampleConditions
                   4 "Humidity" _)).
  reflexivity.
Defined.

(** X21.  The table of [updateParameterTable] has a row for each bar of
    the range chart, in the same order.  The row shows the optimal
    interval with the minimum, the maximum and the unit the chart uses
    for that parameter; it shows the text of the field of the form that
    [createParameterComparisonChart] reads for that parameter, followed
    by the same unit; and its name starts with the label of the bar. *)
Theorem parameterTable_agrees {num} `{Number num}
    (numberToString : num -> string) (formData : string -> option string)
    (c : conditions num) :
  List.map row_optimal (updateParameterTable numberToString formData c)
  = List.map
      (fun q => "Optimal: " ++ numberToString (param_min q) ++ " - "
                ++ numberToString (param_max q) ++ " " ++ param_unit q)
      (parameters c)
  /\ List.map row_value (updateParameterTable numberToString formData c)
     = List.map
         (fun fq : string * parameter num =>
            fieldText (formData (fst fq)) ++ " " ++ param_unit (snd fq))
         (List.combine (ByParam.toList formFields) (parameters c))
  /\ Forall2
       (fun row q => String.prefix (param_name q) (row_name row) = true)
       (updateParameterTable numberToString formData c) (parameters c).
Proof.
  split; [reflexivity|]. split; [reflexivity|].
  unfold updateParameterTable, tableParameters, parameters.
  cbn [List.map]. repeat constructor.
Qed.

(** ** The confidence of the recommended crop *)

Lemma property_In {V} (object : list (string * V)) (key : string) (v : V) :
  property object key = Some v -> In (key, v) object.
Proof.
  induction object as [|[k w] rest IH]; simpl; [discriminate|].
  destruct (String.eqb_spec k key) as [->|Hne].
  - intros [= ->]. left. reflexivity.
  - intros Hv. right. exact (IH Hv).
Qed.

Lemma property_None {V} (object : list (string * V)) (key : string) :
  property object key = None <-> ~ In key (List.map fst object).
Proof.
  induction object as [|[k w] rest IH]; simpl; [tauto|].
  destruct (String.eqb_spec k key) as [->|Hne].
  - split; [discriminate | intros Hn; exfalso; apply Hn; left; reflexivity].
  - rewrite IH. tauto.
Qed.

(** X22.  The confidence shown for the recommended crop is its score
    rounded to the nearest integer, a half going up, and stays between 0
    and 100 when the score does; when the crop is not among the scores
    the text is [N/A]. *)
Theorem confidenceValue_rounds (confidence_scores : @scores Q)
    (crop : string) :
  (forall q, property confidence_scores crop = Some q ->
     exists z : Z,
       confidenceValue confidence_scores crop = inl z
       /\ inject_Z z - (1 # 2) <= q /\ q < inject_Z z + (1 # 2)
       /\ (0 <= q -> q <= 100 -> (0 <= z <= 100)%Z))
  /\ (~ In crop (List.map fst confidence_scores) ->
      confidenceValue confidence_scores crop = inr "N/A").
Proof.
  unfold confidenceValue. split.
  - intros q ->. exists (Math_round q). split; [reflexivity|].
    unfold Math_round.
    pose proof (Qfloor_le (q + (1 # 2))) as Hle.
    pose proof (Qlt_floor (q + (1 # 2))) as Hlt.
    rewrite inject_Z_plus in Hlt.
    change (inject_Z 1) with 1 in Hlt.
    split; [lra|]. split; [lra|].
    intros H0 H100. split.
    + change 0%Z with (Qfloor 0). apply Qfloor_resp_le. lra.
    + assert (inject_Z (Qfloor (q + (1 # 2))) < inject_Z 101) as Hz.
      { change (inject_Z 101) with 101. lra. }
      rewrite <- Zlt_Qlt in Hz. lia.
  - intros Hmissing.
    apply property_None in Hmissing. rewrite Hmissing. reflexivity.
Qed.

Lemma confidenceValue_rounds_witness :
  (exists z : Z,
     confidenceValue wheatRiceMaize "rice" = inl z
     /\ inject_Z z - (1 # 2) <= 85 /\ 85 < inject_Z z + (1 # 2)
     /\ (0 <= 85 -> 85 <= 100 -> (0 <= z <= 100)%Z))
  /\ confidenceValue wheatRiceMaize "barley" = inr "N/A".
Proof.
  split.
  - apply (proj1 (confidenceValue_rounds wheatRiceMaize "rice") 85).
    reflexivity.
  - apply (proj2 (confidenceValue_rounds wheatRiceMaize "barley")).
    simpl. intuition discriminate.
Defined.

(** ** The order of the scores *)

Lemma sorted_permutation_unique (l l' : list (@item Q)) :
  StronglySorted descending l -> StronglySorted descending l' ->
  Permutation l l' ->
  (forall a b, In a l -> In b l -> score a == score b -> a = b) ->
  l = l'.
Proof.
  revert l'. induction l as [|x l IH]; intros l' Hs Hs' Hperm Hdistinct.
  - apply Permutation_nil in Hperm. congruence.
  - destruct l' as [|x' l'].
    { apply Permutation_sym, Permutation_nil in Hperm. discriminate. }
    apply StronglySorted_inv in Hs. destruct Hs as [Hl Hx].
    apply StronglySorted_inv in Hs'. destruct Hs' as [Hl' Hx'].
    rewrite List.Forall_forall in Hx, Hx'.
    assert (x = x') as <-.
    { assert (In x (x' :: l')) as Hin
        by (apply (Permutation_in _ Hperm); left; reflexivity).
      assert (In x' (x :: l)) as Hin'
        by (apply (Permutation_in _ (Permutation_sym Hperm)); left;
            reflexivity).
      destruct Hin as [Heq|Hin]; [congruence|].
      destruct Hin' as [Heq|Hin']; [congruence|].
      pose proof (Hx' x Hin) as H1. pose proof (Hx x' Hin') as H2.
      unfold descending in H1, H2.
      apply Hdistinct; [left; reflexivity | right; exact Hin' | lra]. }
    f_equal. apply IH; try assumption.
    + exact (Permutation_cons_inv Hperm).
    + intros a b Ha Hb. apply Hdistinct; right; assumption.
Qed.

(** X23.  When no two crops have the same score, the confidence chart
    does not depend on the order in which the scores list the crops:
    scores that hold the same entries in another order give the same
    bars in the same order. *)
Theorem topK_order_independent (s s' : @scores Q) (k : nat) :
  Permutation s s' ->
  (forall a b, In a s -> In b s -> snd a == snd b -> a = b) ->
  topK s k = topK s' k.
Proof.
  intros Hperm Hdistinct. unfold topK. f_equal.
  apply sorted_permutation_unique; try apply array_sort_sorted.
  - rewrite !array_sort_perm, !combinedData_map.
    apply Permutation_map, Hperm.
  - intros a b Ha Hb Hab.
    apply (Permutation_in _ (array_sort_perm byScoreDescending _)) in Ha.
    apply (Permutation_in _ (array_sort_perm byScoreDescending _)) in Hb.
    rewrite combinedData_map in Ha, Hb.
    apply List.in_map_iff in Ha. destruct Ha as [a0 [<- Ha]].
    apply List.in_map_iff in Hb. destruct Hb as [b0 [<- Hb]].
    rewrite (Hdistinct a0 b0 Ha Hb Hab). reflexivity.
Qed.

Lemma topK_order_independent_witness :
  topK wheatRiceMaize 2
  = topK [("maize", 95); ("wheat", 90); ("rice", 85)] 2.
Proof.
  apply (topK_order_independent wheatRiceMaize
           [("maize", 95); ("wheat", 90); ("rice", 85)] 2).
  - apply Permutation_sym, Permutation_cons_append.
  - intros a b Ha Hb Hab. simpl in Ha, Hb.
    destruct Ha as [<-|[<-|[<-|[]]]];
      destruct Hb as [<-|[<-|[<-|[]]]];
      try reflexivity; discriminate Hab.
Defined.
